(** * configlet: the track reconciler and its manifest loader

    A shallow embedding of the Go package [configlet] (the files holding
    [Track] and [Config]) and the properties of its six queries.

    Conventions of the embedding.
    - A Go [string] is a byte sequence: Rocq's [string], whose characters
      are the 256 values of [ascii].
    - A Go function returning [(v, err)] returns the pair [(v, e)] with
      [e : option error]; [None] is the nil error.  Both components are
      kept, because the code returns a value next to a non-nil error.
    - A map used as a set ([map[string]struct{}]) is a [gset string], a
      [map[string]string] a [gmap string string].  Go ranges over a map in
      an unspecified order; the embedding ranges over [elements]/
      [map_to_list], and the theorems only rely on membership.
    - The operating system, the regexp package and the JSON scanner are
      parameters: the queries are defined and proved for every behaviour
      of those.  Concrete instances are given further down for examples.
    - [name[0]] on an empty string panics in Go; [outcome] records that. *)

From Stdlib Require Import ZArith String Ascii List Lia.
From stdpp Require Import gmap strings list fin_maps sorting.
Import ListNotations.

Local Open Scope string_scope.
Local Open Scope Z_scope.

(** ** Errors *)

(** The errno values that matter here; [os.IsNotExist] singles out [ENOENT]. *)
Inductive Errno := ENOENT | ENOTDIR | EISDIR | EACCES | EIO.

Inductive error :=
| PathError (op path : string) (errno : Errno)          (* *os.PathError *)
| SyntaxError (msg : string)                            (* *json.SyntaxError *)
| UnmarshalTypeError (value type field : string)        (* *json.UnmarshalTypeError *)
| UnsupportedValueError                                 (* *json.UnsupportedValueError *)
| Errorf (msg : string)                                 (* fmt.Errorf *)
| RegexpError (code expr : string).                     (* *syntax.Error *)

Definition errno_string (n : Errno) : string :=
  match n with
  | ENOENT => "no such file or directory"
  | ENOTDIR => "not a directory"
  | EISDIR => "is a directory"
  | EACCES => "permission denied"
  | EIO => "input/output error"
  end.

(** [err.Error()] *)
Definition Error (e : error) : string :=
  match e with
  | PathError op path n => op ++ " " ++ path ++ ": " ++ errno_string n
  | SyntaxError msg => msg
  | UnmarshalTypeError v t f =>
      if String.eqb f "" then "json: cannot unmarshal " ++ v ++ " into Go value of type " ++ t
      else "json: cannot unmarshal " ++ v ++ " into Go struct field " ++ f ++ " of type " ++ t
  | UnsupportedValueError => "json: unsupported value"
  | Errorf msg => msg
  | RegexpError code expr => "error parsing regexp: " ++ code ++ ": `" ++ expr ++ "`"
  end.

(** [os.IsNotExist] *)
Definition IsNotExist (e : error) : bool :=
  match e with
  | PathError _ _ ENOENT => true
  | _ => false
  end.

(** A call either returns or panics. *)
Inductive outcome (A : Type) :=
| Returns (a : A)
| Panics.
Arguments Returns {A} a.
Arguments Panics {A}.

#[global] Instance outcome_ret : MRet outcome := @Returns.
#[global] Instance outcome_bind : MBind outcome := fun A B k m =>
  match m with
  | Returns a => k a
  | Panics => Panics
  end.

(** ** The operating system *)

Record FileInfo := { Name : string; IsDir : bool }.

(** What the file system answers to the three calls the package makes.
    [ReadDir] stands for [ioutil.ReadDir], [ReadFile] for
    [ioutil.ReadFile], [Stat] for [os.Stat]. *)
Record Disk := {
  Stat : string -> FileInfo + error;
  ReadDir : string -> list FileInfo + error;
  ReadFile : string -> string + error
}.

(** ** package regexp *)

Record RegexpLib := {
  Regexp : Type;
  Compile : string -> Regexp + error;
  (* [Find] returns nil ([None]) when there is no match, and the text of
     the leftmost match otherwise; that text can be empty. *)
  Find : Regexp -> string -> option string
}.

(** ** JSON documents *)

#[warnings="-register-all"]
Inductive json :=
| JNull
| JBool (b : bool)
| JNumber (lit : string)                   (* the literal, as written *)
| JString (s : string)                     (* unquoted, UTF-8 *)
| JArray (vs : list json)
| JObject (members : list (string * json)). (* in document order *)

(** [json.Unmarshal] first scans the whole input ([checkValid]) and fails
    with a [SyntaxError], leaving the target untouched, when the bytes are
    not a JSON text.  The scanner is a parameter of the embedding; the
    decoding of a scanned document into [Config] is written out below. *)
Definition Scanner := string -> json + error.

(** *** Numbers *)

Definition digit_val (c : ascii) : option Z :=
  let n := Z.of_N (N_of_ascii c) in
  if (48 <=? n) && (n <=? 57) then Some (n - 48) else None.

(** The value of a run of decimal digits after [acc]; [None] when a
    character is not a digit. *)
Fixpoint digits_from (acc : Z) (s : string) : option Z :=
  match s with
  | EmptyString => Some acc
  | String c r =>
      match digit_val c with
      | Some d => digits_from (10 * acc + d) r
      | None => None
      end
  end.

Definition digits (s : string) : option Z :=
  match s with
  | EmptyString => None
  | _ => digits_from 0 s
  end.

(** [strconv.ParseInt(lit, 10, 64)] on a JSON number literal: an optional
    minus sign and digits only, within the range of [int64]. *)
Definition ParseInt (lit : string) : option Z :=
  let signed :=
    match lit with
    | String "-" r => option_map Z.opp (digits r)
    | _ => digits lit
    end in
  match signed with
  | Some n => if (- 2 ^ 63 <=? n) && (n <? 2 ^ 63) then Some n else None
  | None => None
  end.

(** Splits [s] at the first character satisfying [p]. *)
Fixpoint break_at (p : ascii -> bool) (s : string) : string * string :=
  match s with
  | EmptyString => (EmptyString, EmptyString)
  | String c r =>
      if p c then (EmptyString, s)
      else let (a, b) := break_at p r in (String c a, b)
  end.

Definition is_exp_mark (c : ascii) : bool := Ascii.eqb c "e" || Ascii.eqb c "E".
Definition is_dot_or_exp (c : ascii) : bool := Ascii.eqb c "." || is_exp_mark c.

(** Mantissa and decimal exponent of a JSON number literal taken without
    its sign: [int[.frac][e[+-]exp]] is [mant * 10^e10]. *)
Definition decimal_of (lit : string) : option (Z * Z) :=
  let (ip, rest) := break_at is_dot_or_exp lit in
  let (fp, ep) :=
    match rest with
    | String "." r => break_at is_exp_mark r
    | _ => (EmptyString, rest)
    end in
  let ex :=
    match ep with
    | EmptyString => Some 0
    | String _ (String "-" r) => option_map Z.opp (digits r)
    | String _ (String "+" r) => digits r
    | String _ r => digits r
    end in
  match digits (ip ++ fp), ex with
  | Some m, Some x => Some (m, x - Z.of_nat (String.length fp))
  | _, _ => None
  end.

(** Whether [strconv.ParseFloat(lit, 64)] succeeds: the literal must not
    round to an infinity, that is, its magnitude must stay below the
    midpoint between the largest float64 and [2^1024]. *)
Definition ParseFloat_ok (lit : string) : bool :=
  let unsigned := match lit with String "-" r => r | _ => lit end in
  match decimal_of unsigned with
  | Some (m, e) =>
      let T := 2 ^ 1024 - 2 ^ 970 in
      if 0 <=? e then m * 10 ^ e <? T else m <? T * 10 ^ (- e)
  | None => false
  end.

(** *** Matching an object key with a struct field

    The decoder looks a key up by exact name and then case-insensitively
    ([bytes.EqualFold]).  Against the ASCII field names of this package
    that is equality after folding: ASCII letters to lower case, U+017F
    (bytes C5 BF) to [s] and U+212A (bytes E2 84 AA) to [k]. *)

Definition lower (c : ascii) : ascii :=
  let n := N_of_ascii c in
  if ((65 <=? n) && (n <=? 90))%N then ascii_of_N (n + 32) else c.

Fixpoint foldName (s : string) : string :=
  match s with
  | EmptyString => EmptyString
  | String c r =>
      match N_of_ascii c, r with
      | 197%N, String c1 r1 =>
          if (N_of_ascii c1 =? 191)%N then String "s" (foldName r1)
          else String c (foldName r)
      | 226%N, String c1 (String c2 r2) =>
          if ((N_of_ascii c1 =? 132) && (N_of_ascii c2 =? 170))%N
          then String "k" (foldName r2)
          else String c (foldName r)
      | _, _ => String (lower c) (foldName r)
      end
  end.

(** ** The manifest *)

Module Exercise.
(** [type Exercise struct].  [UnlockedBy] is an [interface{}].  Its value
    is written as a document: [JNull] is the nil interface, a number
    stands for the float64 its literal rounds to (an infinity when the
    literal is too large), an array for a slice and an object for a map. *)
Record t := mk {
  Core : bool;
  Deprecated : bool;
  Difficulty : Z;
  Topics : list string;
  UnlockedBy : json;
  UUID : string;
  Slug : string
}.
Definition zero : t := mk false false 0 [] JNull "" "".
End Exercise.
Abbreviation Exercise := Exercise.t.

(** [type Config struct].  The unexported [path] is [cpath]. *)
Record Config := mkConfig {
  cpath : string;
  Active : bool;
  Deprecated : list string;
  Exercises : list Exercise;
  Foregone : list string;
  IgnorePattern : string;
  Language : string;
  Repository : string;
  Slug : string;
  SolutionPattern : string
}.

(** [NewConfig] creates a new Config with optional defaults set. *)
Definition NewConfig : Config :=
  mkConfig "" false [] [] [] "" "" "" "" "[Ee]xample".

(** ** Decoding a document into the manifest ([json.Unmarshal])

    The decoder keeps going after a value of the wrong type and reports
    the first such error at the end ([saveError]); the target keeps what
    was decoded.  A [null] leaves a bool, a number, a string or a struct
    as it is and sets a slice or an interface to nil.  A slice is filled
    as the package documents it: its length is reset and each element is
    decoded into a zero value and appended. *)

Definition saveError (e : error) (saved : option error) : option error :=
  match saved with
  | None => Some e
  | Some _ => saved
  end.

Definition kind_of (v : json) : string :=
  match v with
  | JNull => "null"
  | JBool _ => "bool"
  | JNumber _ => "number"
  | JString _ => "string"
  | JArray _ => "array"
  | JObject _ => "object"
  end.

Definition decode_bool (ctx : string) (v : json) (old : bool) (saved : option error)
  : bool * option error :=
  match v with
  | JNull => (old, saved)
  | JBool b => (b, saved)
  | _ => (old, saveError (UnmarshalTypeError (kind_of v) "bool" ctx) saved)
  end.

Definition decode_string (ctx : string) (v : json) (old : string) (saved : option error)
  : string * option error :=
  match v with
  | JNull => (old, saved)
  | JString s => (s, saved)
  | _ => (old, saveError (UnmarshalTypeError (kind_of v) "string" ctx) saved)
  end.

(** An [int] field; [int] is taken to be 64 bits wide. *)
Definition decode_int (ctx : string) (v : json) (old : Z) (saved : option error)
  : Z * option error :=
  match v with
  | JNull => (old, saved)
  | JNumber lit =>
      match ParseInt lit with
      | Some n => (n, saved)
      | None => (old, saveError (UnmarshalTypeError ("number " ++ lit) "int" ctx) saved)
      end
  | _ => (old, saveError (UnmarshalTypeError (kind_of v) "int" ctx) saved)
  end.

(** Storing a document in an [interface{}] converts its numbers to
    float64; one that does not fit is an error. *)
Fixpoint interface_errs (v : json) (saved : option error) : option error :=
  match v with
  | JNumber lit =>
      if ParseFloat_ok lit then saved
      else saveError (UnmarshalTypeError ("number " ++ lit) "float64" "") saved
  | JArray vs =>
      (fix go (vs : list json) (saved : option error) : option error :=
         match vs with
         | [] => saved
         | v :: r => go r (interface_errs v saved)
         end) vs saved
  | JObject ms =>
      (fix go (ms : list (string * json)) (saved : option error) : option error :=
         match ms with
         | [] => saved
         | (_, v) :: r => go r (interface_errs v saved)
         end) ms saved
  | _ => saved
  end.

(** What the decoder stores in an [interface{}] for a document: inside
    an array or an object, nil takes the place of a number that does not
    fit. *)
Fixpoint stored (v : json) : json :=
  match v with
  | JNumber lit => if ParseFloat_ok lit then v else JNull
  | JArray vs => JArray (map stored vs)
  | JObject ms => JObject (map (fun '(k, v) => (k, stored v)) ms)
  | _ => v
  end.

(** A number that does not fit leaves the interface as it was. *)
Definition decode_interface (v : json) (old : json) (saved : option error)
  : json * option error :=
  (match v with
   | JNumber lit => if ParseFloat_ok lit then v else old
   | _ => stored v
   end, interface_errs v saved).

(** The elements of an array, each decoded by [dec] into [zero]. *)
Fixpoint decode_elems {A} (dec : json -> A -> option error -> A * option error)
    (zero : A) (vs : list json) (saved : option error) : list A * option error :=
  match vs with
  | [] => ([], saved)
  | v :: r =>
      let (a, saved) := dec v zero saved in
      let (l, saved) := decode_elems dec zero r saved in
      (a :: l, saved)
  end.

Definition decode_slice {A} (type ctx : string)
    (dec : json -> A -> option error -> A * option error) (zero : A)
    (v : json) (old : list A) (saved : option error) : list A * option error :=
  match v with
  | JNull => ([], saved)
  | JArray vs => decode_elems dec zero vs saved
  | _ => (old, saveError (UnmarshalTypeError (kind_of v) type ctx) saved)
  end.

Definition decode_strings (ctx : string) :=
  decode_slice "[]string" ctx (decode_string ctx) "".

(** One member of an object decoded into a struct: [member k v] stores [v]
    in the field that the key [k] names and ignores a key naming none. *)
Fixpoint decode_members {A} (member : string -> json -> A -> option error -> A * option error)
    (ms : list (string * json)) (a : A) (saved : option error) : A * option error :=
  match ms with
  | [] => (a, saved)
  | (k, v) :: r =>
      let (a, saved) := member k v a saved in
      decode_members member r a saved
  end.

Definition decode_struct {A} (type ctx : string)
    (member : string -> json -> A -> option error -> A * option error)
    (v : json) (old : A) (saved : option error) : A * option error :=
  match v with
  | JNull => (old, saved)
  | JObject ms => decode_members member ms old saved
  | _ => (old, saveError (UnmarshalTypeError (kind_of v) type ctx) saved)
  end.

Definition Exercise_member (k : string) (v : json) (e : Exercise) (saved : option error)
  : Exercise * option error :=
  let 'Exercise.mk core dep diff topics unl uuid slug := e in
  let f := foldName k in
  if String.eqb f "core" then
    let (x, saved) := decode_bool "Exercise.core" v core saved in
    (Exercise.mk x dep diff topics unl uuid slug, saved)
  else if String.eqb f "deprecated" then
    let (x, saved) := decode_bool "Exercise.deprecated" v dep saved in
    (Exercise.mk core x diff topics unl uuid slug, saved)
  else if String.eqb f "difficulty" then
    let (x, saved) := decode_int "Exercise.difficulty" v diff saved in
    (Exercise.mk core dep x topics unl uuid slug, saved)
  else if String.eqb f "topics" then
    let (x, saved) := decode_strings "Exercise.topics" v topics saved in
    (Exercise.mk core dep diff x unl uuid slug, saved)
  else if String.eqb f "unlocked_by" then
    let (x, saved) := decode_interface v unl saved in
    (Exercise.mk core dep diff topics x uuid slug, saved)
  else if String.eqb f "uuid" then
    let (x, saved) := decode_string "Exercise.uuid" v uuid saved in
    (Exercise.mk core dep diff topics unl x slug, saved)
  else if String.eqb f "slug" then
    let (x, saved) := decode_string "Exercise.slug" v slug saved in
    (Exercise.mk core dep diff topics unl uuid x, saved)
  else (e, saved).

Definition decode_Exercise (ctx : string) :=
  decode_struct "configlet.Exercise" ctx Exercise_member.

(** [Deprecated] carries no tag, so its key is the field name; all keys
    are matched through [foldName]. *)
Definition Config_member (k : string) (v : json) (c : Config) (saved : option error)
  : Config * option error :=
  let 'mkConfig p act dep exs fore ign lang repo slug sol := c in
  let f := foldName k in
  if String.eqb f "active" then
    let (x, saved) := decode_bool "Config.active" v act saved in
    (mkConfig p x dep exs fore ign lang repo slug sol, saved)
  else if String.eqb f "deprecated" then
    let (x, saved) := decode_strings "Config.Deprecated" v dep saved in
    (mkConfig p act x exs fore ign lang repo slug sol, saved)
  else if String.eqb f "exercises" then
    let (x, saved) :=
      decode_slice "[]configlet.Exercise" "Config.exercises"
        (decode_Exercise "Config.exercises") Exercise.zero v exs saved in
    (mkConfig p act dep x fore ign lang repo slug sol, saved)
  else if String.eqb f "foregone" then
    let (x, saved) := decode_strings "Config.foregone" v fore saved in
    (mkConfig p act dep exs x ign lang repo slug sol, saved)
  else if String.eqb f "ignore_pattern" then
    let (x, saved) := decode_string "Config.ignore_pattern" v ign saved in
    (mkConfig p act dep exs fore x lang repo slug sol, saved)
  else if String.eqb f "language" then
    let (x, saved) := decode_string "Config.language" v lang saved in
    (mkConfig p act dep exs fore ign x repo slug sol, saved)
  else if String.eqb f "repository" then
    let (x, saved) := decode_string "Config.repository" v repo saved in
    (mkConfig p act dep exs fore ign lang x slug sol, saved)
  else if String.eqb f "slug" then
    let (x, saved) := decode_string "Config.slug" v slug saved in
    (mkConfig p act dep exs fore ign lang repo x sol, saved)
  else if String.eqb f "solution_pattern" then
    let (x, saved) := decode_string "Config.solution_pattern" v sol saved in
    (mkConfig p act dep exs fore ign lang repo slug x, saved)
  else (c, saved).

(** [json.Unmarshal(bytes, &c)] *)
Definition Unmarshal (scan : Scanner) (bytes : string) (c : Config) : Config * option error :=
  match scan bytes with
  | inr e => (c, Some e)
  | inl doc => decode_struct "configlet.Config" "" Config_member doc c None
  end.

(** Every number of the value is a finite float64. *)
Fixpoint finite_numbers (v : json) : bool :=
  match v with
  | JNumber lit => ParseFloat_ok lit
  | JArray vs => forallb finite_numbers vs
  | JObject ms => forallb (fun '(_, v) => finite_numbers v) ms
  | _ => true
  end.

(** [json.MarshalIndent(c, "", "  ")], reduced to its error; the bytes
    are only printed.  Marshalling fails on a value of an unsupported
    type or on a float that is infinite or not a number.  The fields of a
    [Config] are bools, an int, strings and slices of strings, which all
    marshal, and the [UnlockedBy] of its exercises, where such a float
    can sit. *)
Definition MarshalIndent_err (c : Config) : option error :=
  if forallb (fun ex => finite_numbers (Exercise.UnlockedBy ex)) (Exercises c)
  then None else Some UnsupportedValueError.

(** ** Paths ([path/filepath], Unix) *)

(** The components of [s] between slashes; [cur] is the one being read. *)
Fixpoint components (cur s : string) : list string :=
  match s with
  | EmptyString => [cur]
  | String c r =>
      if Ascii.eqb c "/" then cur :: components EmptyString r
      else components (cur ++ String c EmptyString) r
  end.

(** One component pushed on the cleaned path [out] (innermost first):
    empty and [.] components vanish, [..] removes the component before it,
    is dropped at the root and kept at the start of a relative path. *)
Definition clean_step (rooted : bool) (out : list string) (comp : string) : list string :=
  if String.eqb comp "" || String.eqb comp "." then out
  else if String.eqb comp ".." then
    match out with
    | top :: rest => if String.eqb top ".." then comp :: out else rest
    | [] => if rooted then [] else [comp]
    end
  else comp :: out.

(** [filepath.Clean] *)
Definition Clean (path : string) : string :=
  match path with
  | EmptyString => "."
  | String c _ =>
      let rooted := Ascii.eqb c "/" in
      let body := String.concat "/" (rev (fold_left (clean_step rooted) (components "" path) [])) in
      if rooted then "/" ++ body
      else if String.eqb body "" then "." else body
  end.

(** [filepath.Join]: the elements from the first non-empty one on, joined
    by slashes and cleaned; the empty string when there is none. *)
Fixpoint Join (elem : list string) : string :=
  match elem with
  | [] => ""
  | e :: rest => if String.eqb e "" then Join rest else Clean (String.concat "/" elem)
  end.

Arguments Join : simpl never.
Arguments Clean : simpl never.

(** ** The track *)

(** [type Track struct] *)
Record Track := mkTrack { path : string; dirs : gmap string string }.

Definition configFile (t : Track) : string := path t ++ "/config.json".

(** [Config.Slugs] is the list of exercise identifiers for the track. *)
Definition Config_Slugs (c : Config) : list string := map Exercise.Slug (Exercises c).

(** [uniq]: the items are the keys of a map, which are then listed. *)
Definition uniq (items : list string) : list string :=
  let uniques : gmap string bool := foldl (fun m item => <[item := true]> m) ∅ items in
  (map_to_list uniques).*1.

(** [for _, x := range l { set[x] = struct{}{} }] *)
Definition add_all (l : list string) (set : gset string) : gset string :=
  foldl (fun set x => {[x]} ∪ set) set l.

(** [isHiddenDir] answers true for a name that does NOT start with a dot
    (byte 46), and panics on the empty name. *)
Definition isHiddenDir (name : string) : outcome bool :=
  match name with
  | EmptyString => Panics
  | String c _ => Returns (negb (N_of_ascii c =? 46)%N)
  end.

(** Go's [int], 64 bits wide, wraps around. *)
Definition wrap64 (n : Z) : Z := (n + 2 ^ 63) mod 2 ^ 64 - 2 ^ 63.

(** [counts[slug] = counts[slug] + 1]; a key not in the map reads as 0. *)
Definition count_up (counts : gmap string Z) (slug : string) : gmap string Z :=
  <[slug := wrap64 (default 0 (counts !! slug) + 1)]> counts.

(** [sort.Strings]: ascending in the byte-wise order of Go's [<] on
    strings.  As equal strings are indistinguishable, the result does not
    depend on the sorting algorithm. *)
Definition sort_Strings (l : list string) : list string := merge_sort String.le l.

Section Queries.
Context (scan : Scanner) (fs : Disk) (re : RegexpLib).

(** [Load] loads an Exercism track configuration. *)
Definition Load (file : string) : Config * option error :=
  let c := NewConfig in
  match ReadFile fs file with
  | inr err => (c, Some err)
  | inl bytes =>
      let (c, err) := Unmarshal scan bytes c in
      match err with
      | Some err =>
          (c, Some (Errorf ("Unable to parse config: " ++ file ++ " -- " ++ Error err)))
      | None => (c, None)
      end
  end.

(** [Track.Config] loads a track's configuration. *)
Definition Track_Config (t : Track) : Config * option error :=
  let (c, err) := Load (configFile t) in
  match err with
  | Some err => (c, Some err)
  | None => (c, None)
  end.

(** [Track.HasValidConfig].  The [err] of [t.Config()] is assigned again by
    the call to [json.MarshalIndent] before it is ever read; the two
    prints are left out. *)
Definition HasValidConfig (t : Track) : bool :=
  let (c, err) := Track_Config t in
  let err := MarshalIndent_err c in
  match err with
  | None => true
  | Some _ => false
  end.

(** [Track.Problems] *)
Definition Problems (t : Track) : gset string * option error :=
  let problems : gset string := ∅ in
  let (c, err) := Track_Config t in
  match err with
  | Some err => (problems, Some err)
  | None => (add_all (Config_Slugs c) problems, None)
  end.

(** [Track.Slugs] is a list of all problems mentioned in the config. *)
Definition Track_Slugs (t : Track) : gset string * option error :=
  let slugs : gset string := ∅ in
  let (c, err) := Track_Config t in
  match err with
  | Some err => (slugs, Some err)
  | None =>
      let slugs := add_all (Config_Slugs c) slugs in
      let slugs := add_all (Deprecated c) slugs in
      let slugs := add_all (Foregone c) slugs in
      (slugs, None)
  end.

(** The loop of [Track.Dirs] over the directory entries. *)
Fixpoint Dirs_loop (infos : list FileInfo) (dirs : gset string) : outcome (gset string) :=
  match infos with
  | [] => Returns dirs
  | info :: rest =>
      if IsDir info && negb (String.eqb (Name info) "exercises") then
        shown ← isHiddenDir (Name info);
        Dirs_loop rest (if shown : bool then {[Name info]} ∪ dirs else dirs)
      else Dirs_loop rest dirs
  end.

(** [Track.Dirs] is a list of all the relevant directories. *)
Definition Dirs (t : Track) : outcome (gset string * option error) :=
  let dirs : gset string := ∅ in
  let exercises := Join [path t; "exercises"] in
  match Stat fs exercises with
  | inr err =>
      if IsNotExist err then Returns (dirs, None) else Returns (dirs, Some err)
  | inl _ =>
      match ReadDir fs (Join [path t; "exercises"]) with
      | inr err => Returns (dirs, Some err)
      | inl infos =>
          dirs ← Dirs_loop infos dirs;
          Returns (dirs, None)
      end
  end.

(** [Track.MissingProblems] *)
Definition MissingProblems (t : Track) : outcome (list string * option error) :=
  '(dirs, err) ← Dirs t;
  match err with
  | Some err => Returns ([], Some err)
  | None =>
      let (problems, err) := Problems t in
      match err with
      | Some err => Returns ([], Some err)
      | None => Returns (filter (fun problem => problem ∉ dirs) (elements problems), None)
      end
  end.

(** [Track.UnconfiguredProblems] *)
Definition UnconfiguredProblems (t : Track) : outcome (list string * option error) :=
  '(dirs, err) ← Dirs t;
  match err with
  | Some err => Returns ([], Some err)
  | None =>
      let (slugs, err) := Track_Slugs t in
      match err with
      | Some err => Returns ([], Some err)
      | None => Returns (filter (fun dir => dir ∉ slugs) (elements dirs), None)
      end
  end.

(** [Track.ForegoneViolations] *)
Definition ForegoneViolations (t : Track) : outcome (list string * option error) :=
  let problems : list string := [] in
  let (c, err) := Track_Config t in
  match err with
  | Some err => Returns (problems, Some err)
  | None =>
      '(dirs, err) ← Dirs t;
      match err with
      | Some err => Returns (problems, Some err)
      | None => Returns (filter (fun problem => problem ∈ dirs) (Foregone c), None)
      end
  end.

(** [Track.DuplicateSlugs] *)
Definition DuplicateSlugs (t : Track) : list string * option error :=
  let counts : gmap string Z := ∅ in
  let (c, err) := Track_Config t in
  match err with
  | Some err => ([], Some err)
  | None =>
      let counts := foldl count_up counts (Config_Slugs c) in
      let counts := foldl count_up counts (Deprecated c) in
      let counts := foldl count_up counts (Foregone c) in
      let dupes := (filter (fun sc : string * Z => 1 < sc.2) (map_to_list counts)).*1 in
      (sort_Strings dupes, None)
  end.

(** [Track.hasExampleFile]: a file counts when the leftmost match of the
    pattern in its path is not empty ([len(matches) > 0]). *)
Definition hasExampleFile (t : Track) (files : list string) : bool * option error :=
  let (c, err) := Track_Config t in
  match err with
  | Some err => (false, Some err)
  | None =>
      match Compile re (SolutionPattern c) with
      | inr err => (false, Some err)
      | inl r =>
          (existsb (fun file =>
                      match Find re r file with
                      | Some matches => (0 <? String.length matches)%nat
                      | None => false
                      end) files, None)
      end
  end.

(** The loop of [findAllFiles] over the entries of [dir]; [rec] is the
    recursive call, whose [None] says that the walk was cut short. *)
Fixpoint findAllFiles_loop (rec : string -> option (list string * option error))
    (dir : string) (infos : list FileInfo) (files : list string)
  : option (list string * option error) :=
  match infos with
  | [] => Some (files, None)
  | info :: rest =>
      let subPath := dir ++ "/" ++ Name info in
      if IsDir info then
        match rec subPath with
        | None => None
        | Some (subFiles, Some err) => Some (files, Some err)
        | Some (subFiles, None) => findAllFiles_loop rec dir rest (files ++ subFiles)
        end
      else findAllFiles_loop rec dir rest (files ++ [subPath])
  end.

(** [findAllFiles].  The recursion follows the directories that [ReadDir]
    reports, so it is bounded by [fuel], the depth it may descend; [None]
    means the bound was reached. *)
Fixpoint findAllFiles (fuel : nat) (dir : string) : option (list string * option error) :=
  match fuel with
  | O => None
  | S fuel =>
      match ReadDir fs dir with
      | inr err => Some ([], Some err)
      | inl infos => findAllFiles_loop (findAllFiles fuel) dir infos []
      end
  end.

(** The loop of [Track.ProblemsLackingExample].  The error of
    [hasExampleFile] is bound and never read. *)
Fixpoint ProblemsLackingExample_loop (fuel : nat) (t : Track) (problems issues : list string)
  : option (list string * option error) :=
  match problems with
  | [] => Some (issues, None)
  | problem :: rest =>
      let dir := default "" (dirs t !! problem) in
      if String.eqb dir "" then ProblemsLackingExample_loop fuel t rest issues
      else
        match findAllFiles fuel dir with
        | None => None
        | Some (files, Some err) => Some (issues, Some err)
        | Some (files, None) =>
            let (found, err) := hasExampleFile t files in
            ProblemsLackingExample_loop fuel t rest
              (if found then issues else issues ++ [problem])
        end
  end.

(** [Track.ProblemsLackingExample] *)
Definition ProblemsLackingExample (fuel : nat) (t : Track)
  : option (list string * option error) :=
  let (c, err) := Track_Config t in
  match err with
  | Some err => Some ([], Some err)
  | None => ProblemsLackingExample_loop fuel t (Config_Slugs c) []
  end.

(** The loop of [NewTrack] over the declared slugs. *)
Fixpoint NewTrack_loop (slugs : list string) (t : Track) : outcome (Track * option error) :=
  match slugs with
  | [] => Returns (t, None)
  | slug :: rest =>
      let dir := Join [path t; "exercises"; slug] in
      match Stat fs dir with
      | inl fi =>
          if IsDir fi then
            shown ← isHiddenDir (Name fi);
            if shown : bool
            then NewTrack_loop rest (mkTrack (path t) (<[slug := dir]> (dirs t)))
            else NewTrack_loop rest t
          else NewTrack_loop rest t
      | inr err =>
          if negb (IsNotExist err) then Returns (t, Some err)
          else NewTrack_loop rest t
      end
  end.

(** [NewTrack] is an exercism language track that lives at path. *)
Definition NewTrack (root : string) : outcome (Track * option error) :=
  let t := mkTrack root ∅ in
  let (slugs, err) := Track_Slugs t in
  match err with
  | Some err => Returns (t, Some err)
  | None => NewTrack_loop (elements slugs) t
  end.

End Queries.

(** ** A file system given as a tree

    An instance of [Disk] for the examples: files and directories without
    links, a directory being readable or not.  Paths are resolved from the
    root of the tree, which is also the working directory. *)

#[warnings="-register-all"]
Inductive node :=
| File (data : string)
| Dir (readable : bool) (entries : list (string * node)).

Definition is_dir (n : node) : bool :=
  match n with
  | Dir _ _ => true
  | File _ => false
  end.

Fixpoint assoc (name : string) (entries : list (string * node)) : option node :=
  match entries with
  | [] => None
  | (k, n) :: r => if String.eqb k name then Some n else assoc name r
  end.

(** The node reached from [n] along the components [comps]. *)
Fixpoint walk (n : node) (comps : list string) : node + Errno :=
  match comps with
  | [] => inl n
  | comp :: r =>
      if String.eqb comp "" || String.eqb comp "." || String.eqb comp ".." then walk n r
      else
        match n with
        | File _ => inr ENOTDIR
        | Dir _ entries =>
            match assoc comp entries with
            | Some child => walk child r
            | None => inr ENOENT
            end
        end
  end.

Definition resolve (root : node) (p : string) : node + Errno :=
  match p with
  | EmptyString => inr ENOENT
  | _ => walk root (components "" (Clean p))
  end.

(** The last element of a path, the name [os.Stat] reports. *)
Definition basename (p : string) : string :=
  match filter (fun comp => negb (String.eqb comp "")) (components "" p) with
  | [] => if String.eqb p "" then "." else "/"
  | x :: l => default x (last l)
  end.

Definition info_of (entry : string * node) : FileInfo :=
  {| Name := entry.1; IsDir := is_dir entry.2 |}.

Definition by_name (a b : string * node) : Prop := String.le a.1 b.1.

#[global] Instance by_name_dec : RelDecision by_name :=
  fun a b => decide (String.le a.1 b.1).

Definition tree_disk (root : node) : Disk := {|
  Stat p :=
    match resolve root p with
    | inl n => inl {| Name := basename p; IsDir := is_dir n |}
    | inr no => inr (PathError "stat" p no)
    end;
  ReadDir p :=
    match resolve root p with
    | inl (Dir true entries) => inl (map info_of (merge_sort by_name entries))
    | inl (Dir false _) => inr (PathError "open" p EACCES)
    | inl (File _) => inr (PathError "readdirent" p ENOTDIR)
    | inr no => inr (PathError "open" p no)
    end;
  ReadFile p :=
    match resolve root p with
    | inl (File data) => inl data
    | inl (Dir _ _) => inr (PathError "read" p EISDIR)
    | inr no => inr (PathError "open" p no)
    end
|}.

(** ** A fragment of package regexp

    An instance of [RegexpLib] for the examples.  It covers the patterns
    made of ASCII literal characters and bracket classes of such
    characters, like the default ["[Ee]xample"], and the unclosed group.
    On these it agrees with Go; every other pattern is turned down here
    with an error of its own, which says nothing about Go. *)

Definition is_meta (c : ascii) : bool :=
  existsb (Ascii.eqb c) (list_ascii_of_string "\.+*?()|[]{}^$").

Definition is_ascii (c : ascii) : bool := (N_of_ascii c <? 128)%N.

Inductive parsed :=
| Sets (p : list (list ascii))   (* one set of bytes per position *)
| MissingParen                   (* a group is opened and never closed *)
| Outside.                       (* not in the fragment *)

Definition parsed_cons (set : list ascii) (r : parsed) : parsed :=
  match r with
  | Sets p => Sets (set :: p)
  | other => other
  end.

(** [cls] is [Some acc] inside a bracket class, [opened] says that a
    group was opened. *)
Fixpoint parse_pattern (cls : option (list ascii)) (opened : bool) (s : string) : parsed :=
  match s, cls with
  | EmptyString, None => if opened then MissingParen else Sets []
  | EmptyString, Some _ => Outside
  | String c r, None =>
      if Ascii.eqb c "[" then parse_pattern (Some []) opened r
      else if Ascii.eqb c "(" then
        if existsb (fun x => Ascii.eqb x ")" || Ascii.eqb x "?") (list_ascii_of_string r)
        then Outside else parse_pattern None true r
      else if is_meta c || negb (is_ascii c) then Outside
      else if opened then parse_pattern None opened r
      else parsed_cons [c] (parse_pattern None opened r)
  | String c r, Some acc =>
      if Ascii.eqb c "]" then
        match acc with
        | [] => Outside
        | _ => if opened then parse_pattern None opened r
               else parsed_cons (rev acc) (parse_pattern None opened r)
        end
      else if Ascii.eqb c "\" || Ascii.eqb c "^" || Ascii.eqb c "-" || Ascii.eqb c "["
              || negb (is_ascii c)
      then Outside
      else parse_pattern (Some (c :: acc)) opened r
  end.

Definition fragment_Compile (expr : string) : list (list ascii) + error :=
  match parse_pattern None false expr with
  | Sets p => inl p
  | MissingParen => inr (RegexpError "missing closing )" expr)
  | Outside => inr (RegexpError "pattern outside the modelled fragment" expr)
  end.

Fixpoint match_here (p : list (list ascii)) (s : string) : bool :=
  match p, s with
  | [], _ => true
  | set :: p, String c r => existsb (Ascii.eqb c) set && match_here p r
  | _ :: _, EmptyString => false
  end.

(** The leftmost match; all matches of a pattern have its length. *)
Fixpoint fragment_Find (p : list (list ascii)) (s : string) : option string :=
  if match_here p s then Some (substring 0 (length p) s)
  else
    match s with
    | EmptyString => None
    | String _ r => fragment_Find p r
    end.

Definition fragment : RegexpLib := {|
  Regexp := list (list ascii);
  Compile := fragment_Compile;
  Find := fragment_Find
|}.

(** ** A JSON scanner

    An instance of [Scanner] for the examples: the grammar of RFC 8259 as
    encoding/json reads it.  The text of a syntax error is reduced to one
    message. *)

Definition byte_in (lo hi : N) (c : ascii) : bool :=
  ((lo <=? N_of_ascii c) && (N_of_ascii c <=? hi))%N.

Definition is_space (c : ascii) : bool :=
  let n := N_of_ascii c in ((n =? 32) || (n =? 9) || (n =? 10) || (n =? 13))%N.

Fixpoint skip_space (s : string) : string :=
  match s with
  | String c r => if is_space c then skip_space r else s
  | EmptyString => s
  end.

Definition hex_val (c : ascii) : option N :=
  let n := N_of_ascii c in
  if byte_in 48 57 c then Some (n - 48)%N
  else if byte_in 97 102 c then Some (n - 87)%N
  else if byte_in 65 70 c then Some (n - 55)%N
  else None.

(** [getu4]: the four hex digits of a [\u] escape. *)
Definition hex4 (a b c d : ascii) : option N :=
  match hex_val a, hex_val b, hex_val c, hex_val d with
  | Some x, Some y, Some z, Some w => Some (((x * 16 + y) * 16 + z) * 16 + w)%N
  | _, _, _, _ => None
  end.

(** [utf8.EncodeRune] *)
Definition utf8 (r : N) : string :=
  let b (n : N) := ascii_of_N n in
  (if r <? 128 then String (b r) ""
   else if r <? 2048 then String (b (192 + r / 64)) (String (b (128 + r mod 64)) "")
   else if r <? 65536 then
     String (b (224 + r / 4096)) (String (b (128 + (r / 64) mod 64)) (String (b (128 + r mod 64)) ""))
   else
     String (b (240 + r / 262144)) (String (b (128 + (r / 4096) mod 64))
       (String (b (128 + (r / 64) mod 64)) (String (b (128 + r mod 64)) ""))))%N.

(** U+FFFD, written for every byte that is not part of a valid UTF-8
    sequence and for a surrogate escape without its pair. *)
Definition replacement : string := utf8 65533.

(** The length of the valid UTF-8 sequence that starts [s], if any. *)
Definition utf8_len (s : string) : option nat :=
  let cont := byte_in 128 191 in
  match s with
  | String a r =>
      if byte_in 0 127 a then Some 1%nat
      else
        match r with
        | String b r =>
            if byte_in 194 223 a && cont b then Some 2%nat
            else
              match r with
              | String c r =>
                  if (byte_in 224 224 a && byte_in 160 191 b
                      || byte_in 225 236 a && cont b
                      || byte_in 237 237 a && byte_in 128 159 b
                      || byte_in 238 239 a && cont b) && cont c then Some 3%nat
                  else
                    match r with
                    | String d _ =>
                        if (byte_in 240 240 a && byte_in 144 191 b
                            || byte_in 241 243 a && cont b
                            || byte_in 244 244 a && byte_in 128 143 b) && cont c && cont d
                        then Some 4%nat else None
                    | EmptyString => None
                    end
              | EmptyString => None
              end
        | EmptyString => None
        end
  | EmptyString => None
  end.

Definition simple_escape (c : ascii) : option ascii :=
  let n := N_of_ascii c in
  (if n =? 34 then Some c                      (* quote *)
   else if n =? 92 then Some c                 (* backslash *)
   else if n =? 47 then Some c                 (* slash *)
   else if n =? 98 then Some (ascii_of_N 8)    (* b *)
   else if n =? 102 then Some (ascii_of_N 12)  (* f *)
   else if n =? 110 then Some (ascii_of_N 10)  (* n *)
   else if n =? 114 then Some (ascii_of_N 13)  (* r *)
   else if n =? 116 then Some (ascii_of_N 9)   (* t *)
   else None)%N.

Definition emit (out : string) (r : option (string * string)) : option (string * string) :=
  match r with
  | Some (s, rest) => Some (out ++ s, rest)
  | None => None
  end.

Definition is_surrogate (r : N) : bool := ((55296 <=? r) && (r <=? 57343))%N.

(** [utf16.DecodeRune]: the rune of a surrogate pair, if it is one. *)
Definition surrogate_pair (hi lo : N) : option N :=
  (if (55296 <=? hi) && (hi <=? 56319) && (56320 <=? lo) && (lo <=? 57343)
   then Some ((hi - 55296) * 1024 + (lo - 56320) + 65536) else None)%N.

(** A string literal after its opening quote: its value and what follows
    the closing quote.  [pending] counts the continuation bytes of a valid
    UTF-8 sequence still to be copied. *)
Fixpoint scan_string (pending : nat) (s : string) : option (string * string) :=
  match s with
  | EmptyString => None
  | String c r =>
      match pending with
      | S p => emit (String c "") (scan_string p r)
      | O =>
          let n := N_of_ascii c in
          if (n =? 34)%N then Some ("", r)
          else if (n =? 92)%N then
            match r with
            | String e r1 =>
                match simple_escape e with
                | Some x => emit (String x "") (scan_string 0 r1)
                | None =>
                    match r1 with
                    | String h1 (String h2 (String h3 (String h4 r2))) =>
                        match (if Ascii.eqb e "u" then hex4 h1 h2 h3 h4 else None) with
                        | Some rr =>
                            if is_surrogate rr then
                              match r2 with
                              | String b (String u (String g1 (String g2 (String g3 (String g4 r3))))) =>
                                  match (if Ascii.eqb b "\" && Ascii.eqb u "u"
                                         then hex4 g1 g2 g3 g4 else None) with
                                  | Some lo =>
                                      match surrogate_pair rr lo with
                                      | Some dec => emit (utf8 dec) (scan_string 0 r3)
                                      | None => emit replacement (scan_string 0 r2)
                                      end
                                  | None => emit replacement (scan_string 0 r2)
                                  end
                              | _ => emit replacement (scan_string 0 r2)
                              end
                            else emit (utf8 rr) (scan_string 0 r2)
                        | None => None
                        end
                    | _ => None
                    end
                end
            | EmptyString => None
            end
          else if (n <? 32)%N then None
          else
            match utf8_len s with
            | Some len => emit (String c "") (scan_string (len - 1) r)
            | None => emit replacement (scan_string 0 r)
            end
      end
  end.

Definition is_digit (c : ascii) : bool := byte_in 48 57 c.

(** The longest prefix of digits and the rest. *)
Definition span_digits (s : string) : string * string := break_at (fun c => negb (is_digit c)) s.

(** A number literal at the start of [s] and what follows it. *)
Definition scan_number (s : string) : option (string * string) :=
  let (sign, s1) := match s with String "-" r => ("-", r) | _ => ("", s) end in
  let (ip, s2) :=
    match s1 with
    | String "0" r => ("0", r)
    | _ => span_digits s1
    end in
  let frac :=
    match s2 with
    | String "." r => let (fp, s3) := span_digits r in
                      if String.eqb fp "" then None else Some ("." ++ fp, s3)
    | _ => Some ("", s2)
    end in
  match frac with
  | None => None
  | Some (fp, s3) =>
      let ex :=
        match s3 with
        | String e r =>
            if is_exp_mark e then
              let (sg, r1) :=
                match r with
                | String "+" r1 => ("+", r1)
                | String "-" r1 => ("-", r1)
                | _ => ("", r)
                end in
              let (ep, s4) := span_digits r1 in
              if String.eqb ep "" then None else Some (String e sg ++ ep, s4)
            else Some ("", s3)
        | EmptyString => Some ("", s3)
        end in
      match ex with
      | None => None
      | Some (ep, s4) =>
          if String.eqb ip "" then None else Some (sign ++ ip ++ fp ++ ep, s4)
      end
  end.

Definition strip_prefix (p s : string) : option string :=
  if String.prefix p s then Some (substring (String.length p) (String.length s) s) else None.

(** A value at the start of [s] (after blanks) and what follows it.
    [fuel] bounds the calls; each one reads at least one character every
    second call, so twice the length of the text is enough. *)
Fixpoint scan_value (fuel : nat) (s : string) : option (json * string) :=
  match fuel with
  | O => None
  | S fuel =>
      match skip_space s with
      | EmptyString => None
      | String c r as s' =>
          let n := N_of_ascii c in
          if (n =? 123)%N then                                   (* { *)
            match skip_space r with
            | String "}" r' => Some (JObject [], r')
            | r' =>
                match scan_members fuel r' with
                | Some (ms, r'') => Some (JObject ms, r'')
                | None => None
                end
            end
          else if (n =? 91)%N then                               (* [ *)
            match skip_space r with
            | String "]" r' => Some (JArray [], r')
            | r' =>
                match scan_elems fuel r' with
                | Some (vs, r'') => Some (JArray vs, r'')
                | None => None
                end
            end
          else if (n =? 34)%N then                               (* quote *)
            match scan_string 0 r with
            | Some (str, r') => Some (JString str, r')
            | None => None
            end
          else if (n =? 45)%N || is_digit c then
            match scan_number s' with
            | Some (lit, r') => Some (JNumber lit, r')
            | None => None
            end
          else
            match strip_prefix "true" s', strip_prefix "false" s', strip_prefix "null" s' with
            | Some r', _, _ => Some (JBool true, r')
            | _, Some r', _ => Some (JBool false, r')
            | _, _, Some r' => Some (JNull, r')
            | _, _, _ => None
            end
      end
  end
with scan_elems (fuel : nat) (s : string) : option (list json * string) :=
  match fuel with
  | O => None
  | S fuel =>
      match scan_value fuel s with
      | Some (v, r) =>
          match skip_space r with
          | String "," r' =>
              match scan_elems fuel r' with
              | Some (vs, r'') => Some (v :: vs, r'')
              | None => None
              end
          | String "]" r' => Some ([v], r')
          | _ => None
          end
      | None => None
      end
  end
with scan_members (fuel : nat) (s : string) : option (list (string * json) * string) :=
  match fuel with
  | O => None
  | S fuel =>
      match skip_space s with
      | String c r =>
          if (N_of_ascii c =? 34)%N then
            match scan_string 0 r with
            | Some (key, r1) =>
                match skip_space r1 with
                | String ":" r2 =>
                    match scan_value fuel r2 with
                    | Some (v, r3) =>
                        match skip_space r3 with
                        | String "," r4 =>
                            match scan_members fuel r4 with
                            | Some (ms, r5) => Some ((key, v) :: ms, r5)
                            | None => None
                            end
                        | String "}" r4 => Some ([(key, v)], r4)
                        | _ => None
                        end
                    | None => None
                    end
                | _ => None
                end
            | None => None
            end
          else None
      | EmptyString => None
      end
  end.

Definition scan_json : Scanner := fun text =>
  match scan_value (2 * String.length text + 2) text with
  | Some (doc, rest) =>
      match skip_space rest with
      | EmptyString => inl doc
      | _ => inr (SyntaxError "invalid character after top-level value")
      end
  | None => inr (SyntaxError "invalid JSON text")
  end.

(** JSON text is written with apostrophes for its double quotes. *)
Fixpoint dq (s : string) : string :=
  match s with
  | EmptyString => EmptyString
  | String c r => String (if Ascii.eqb c "'" then ascii_of_N 34 else c) (dq r)
  end.

(** * Vocabulary of the properties *)

(** ** Names and sets *)

(** A name starts with a dot. *)
Definition dot_prefixed (name : string) : bool :=
  match name with
  | String c _ => Ascii.eqb c "."
  | EmptyString => false
  end.

(** Problems: the slugs of the [exercises] sequence. *)
Definition ProblemsOf (c : Config) : gset string := list_to_set (Config_Slugs c).

(** Declared slugs: the slugs of [exercises], [deprecated] and [foregone]. *)
Definition DeclaredSlugs (c : Config) : gset string :=
  list_to_set (Config_Slugs c) ∪ list_to_set (Deprecated c) ∪ list_to_set (Foregone c).

(** ** Counting slugs *)

(** Every slug the manifest mentions, with repetitions. *)
Definition all_slugs (c : Config) : list string :=
  Config_Slugs c ++ Deprecated c ++ Foregone c.

(** How often [x] occurs in [l]. *)
Definition occurrences (x : string) (l : list string) : nat := count_occ string_dec l x.

(** In how many of the three sequences [x] appears. *)
Definition sequences_with (x : string) (c : Config) : nat :=
  ((if decide (x ∈ Config_Slugs c) then 1 else 0)
   + (if decide (x ∈ Deprecated c) then 1 else 0)
   + (if decide (x ∈ Foregone c) then 1 else 0))%nat.

(** [counts[x]], 0 for a key not in the map. *)
Definition count_of (counts : gmap string Z) (x : string) : Z := default 0 (counts !! x).

(** ** The files below a directory *)

Section Tree.
Context (fs : Disk).

(** [InTree dir file]: [file] is the path that [findAllFiles] builds for
    an entry that is not a directory, found in [dir] or in a directory
    below it. *)
Inductive InTree : string → string → Prop :=
| InTree_here dir infos info :
    ReadDir fs dir = inl infos → info ∈ infos → IsDir info = false →
    InTree dir (dir ++ "/" ++ Name info)
| InTree_below dir infos info file :
    ReadDir fs dir = inl infos → info ∈ infos → IsDir info = true →
    InTree (dir ++ "/" ++ Name info) file →
    InTree dir file.

(** The directories below [dir] form a finite tree: following [ReadDir]
    downwards always comes to an end. *)
Inductive Finite : string → Prop :=
| Finite_intro dir :
    (∀ infos info, ReadDir fs dir = inl infos → info ∈ infos → IsDir info = true →
                   Finite (dir ++ "/" ++ Name info)) →
    Finite dir.

(** A check that the tree below [dir] is no deeper than [n]. *)
Fixpoint finite_within (n : nat) (dir : string) : bool :=
  match n with
  | O => false
  | S n =>
      match ReadDir fs dir with
      | inr _ => true
      | inl infos =>
          forallb (fun info => negb (IsDir info) || finite_within n (dir ++ "/" ++ Name info))
                  infos
      end
  end.

End Tree.

(** The test of [hasExampleFile] on one file: the leftmost match of the
    pattern is not empty. *)
Definition has_match (re : RegexpLib) (r : Regexp re) (file : string) : bool :=
  match Find re r file with
  | Some matches => (0 <? String.length matches)%nat
  | None => false
  end.


(** ** Documents and fields *)

(** The document is an object with a member whose key names [field]
    (a JSON name in lower case). *)
Definition mentions (field : string) (doc : json) : bool :=
  match doc with
  | JObject ms => existsb (fun kv : string * json => String.eqb (foldName kv.1) field) ms
  | _ => false
  end.

(** The key names a field of [Config]. *)
Definition names_field (k : string) : bool :=
  existsb (String.eqb (foldName k))
    ["active"; "deprecated"; "exercises"; "foregone"; "ignore_pattern"; "language";
     "repository"; "slug"; "solution_pattern"].

(** A decoder whose error does not depend on the value decoded into, and
    which keeps an error saved before. *)
Definition steady {A} (dec : json → A → option error → A * option error) : Prop :=
  ∀ v old old' saved,
    (dec v old saved).2 = match saved with
                          | Some e => Some e
                          | None => (dec v old' None).2
                          end.

(** The manifest marshals: the [UnlockedBy] of its exercises hold finite
    numbers only. *)
Definition marshals (c : Config) : Prop :=
  forallb (fun ex => finite_numbers (Exercise.UnlockedBy ex)) (Exercises c) = true.

(** * Example tracks

    Each is the tree of a file system with the track at [track/]; the
    queries run on [tree_disk], [scan_json] and [fragment]. *)

(** The end-to-end scenario, with two more exercises: [carol] has no
    directory, [dave] no example, and [alice] is not in the manifest. *)
Definition sample : node :=
  Dir true
    [("track", Dir true
       [("config.json",
         File (dq "{'exercises': [{'slug': 'bob'}, {'slug': 'carol'}, {'slug': 'dave'}],
                    'foregone': ['trivial'], 'deprecated': []}"));
        ("exercises", Dir true
           [("bob", Dir true [("sub", Dir true [("example.go", File "")])]);
            (".meta", Dir true []);
            ("alice", Dir true []);
            ("dave", Dir true [("solution.go", File "")]);
            ("trivial", Dir true []);
            ("README", File "")])])].

(** The receiver of the queries that do not read [dirs]. *)
Definition sample_track : Track := mkTrack "track" ∅.

(** The manifest of the sample, loaded. *)
Definition sample_config : Config :=
  Eval vm_compute in (Track_Config scan_json (tree_disk sample) sample_track).1.

(** The directories of the sample that [Dirs] returns. *)
Definition sample_dirs : gset string := {["alice"; "bob"; "dave"; "trivial"]}.

(** The track that [NewTrack] builds for the sample. *)
Definition sample_resolved : Track :=
  mkTrack "track"
    {[ "bob" := "track/exercises/bob"; "dave" := "track/exercises/dave";
       "trivial" := "track/exercises/trivial" ]}.

(** The default pattern, compiled. *)
Definition example_regexp : list (list ascii) :=
  Eval vm_compute in
    match fragment_Compile "[Ee]xample" with
    | inl r => r
    | inr _ => []
    end.

(** A track whose manifest is cut off after its first character. *)
Definition broken_manifest : node :=
  Dir true [("track", Dir true [("config.json", File "{")])].

(** A manifest file holding the empty object. *)
Definition empty_object : node :=
  Dir true [("track", Dir true [("config.json", File "{}")])].

(** A track without manifest and without [exercises/], next to a plain
    file. *)
Definition bare : node :=
  Dir true [("track", Dir true [("README.md", File "")]); ("notes.txt", File "")].

(** A track whose [exercises/] cannot be read. *)
Definition locked : node :=
  Dir true [("track", Dir true [("exercises", Dir false [])])].

(** A track with a hidden directory that the manifest declares. *)
Definition hidden : node :=
  Dir true
    [("track", Dir true
       [("config.json", File (dq "{'exercises': [{'slug': '.meta'}, {'slug': 'bob'}]}"));
        ("exercises", Dir true
           [(".meta", Dir true [("example.go", File "")]);
            ("bob", Dir true [("example.go", File "")])])])].

(** A manifest that only forgoes the slug [exercises], whose directory
    exists. *)
Definition nested_exercises : node :=
  Dir true
    [("track", Dir true
       [("config.json", File (dq "{'foregone': ['exercises']}"));
        ("exercises", Dir true [("exercises", Dir true [("example.go", File "")])])])].

(** A manifest that lists the slug [exercises] among its exercises, with
    its directory. *)
Definition exercises_slug : node :=
  Dir true
    [("track", Dir true
       [("config.json", File (dq "{'exercises': [{'slug': 'exercises'}]}"));
        ("exercises", Dir true [("exercises", Dir true [("example.go", File "")])])])].

(** An exercise listed twice, and nothing deprecated or foregone. *)
Definition listed_twice : node :=
  Dir true
    [("track", Dir true
       [("config.json", File (dq "{'exercises': [{'slug': 'bob'}, {'slug': 'bob'}]}"))])].

(** [carol] is an exercise and foregone, [bob] an exercise and
    deprecated, [dave] only foregone. *)
Definition twice_classified : node :=
  Dir true
    [("track", Dir true
       [("config.json",
         File (dq "{'exercises': [{'slug': 'carol'}, {'slug': 'bob'}],
                    'deprecated': ['bob'], 'foregone': ['dave', 'carol']}"))])].

Definition twice_classified_config : Config :=
  Eval vm_compute in (Track_Config scan_json (tree_disk twice_classified) sample_track).1.

(** The manifest lists [bob], and [exercises] is a plain file. *)
Definition exercises_is_file : node :=
  Dir true
    [("track", Dir true
       [("config.json", File (dq "{'exercises': [{'slug': 'bob'}]}"));
        ("exercises", File "")])].

(** The directory of [bob] is empty. *)
Definition empty_exercise : node :=
  Dir true
    [("track", Dir true
       [("config.json", File (dq "{'exercises': [{'slug': 'bob'}]}"));
        ("exercises", Dir true [("bob", Dir true [])])])].

(** Two manifests with the same exercises; the second has two more
    members, which name no field. *)
Definition plain_manifest : string := dq "{'exercises': [{'slug': 'bob'}]}".
Definition noisy_manifest : string :=
  dq "{'checklist_issue': 4, 'exercises': [{'slug': 'bob'}], 'test_pattern': ['a', null]}".

(** A manifest whose [solution_pattern] opens a group and never closes
    it; [bob] has an example. *)
Definition bad_pattern : node :=
  Dir true
    [("track", Dir true
       [("config.json", File (dq "{'exercises': [{'slug': 'bob'}], 'solution_pattern': '('}"));
        ("exercises", Dir true [("bob", Dir true [("example.go", File "")])])])].

(** A manifest whose [solution_pattern] is empty; [bob] has an example. *)
Definition empty_pattern : node :=
  Dir true
    [("track", Dir true
       [("config.json", File (dq "{'exercises': [{'slug': 'bob'}], 'solution_pattern': ''}"));
        ("exercises", Dir true [("bob", Dir true [("example.go", File "")])])])].

(** The track that [NewTrack] builds for the two. *)
Definition bob_resolved : Track := mkTrack "track" {[ "bob" := "track/exercises/bob" ]}.

(** [dave] has no example, and the directory of [zed], the exercise after
    it, cannot be read. *)
Definition unreadable : node :=
  Dir true
    [("track", Dir true
       [("config.json", File (dq "{'exercises': [{'slug': 'dave'}, {'slug': 'zed'}]}"));
        ("exercises", Dir true
           [("dave", Dir true [("solution.go", File "")]);
            ("zed", Dir false [])])])].

(** The track that [NewTrack] builds for it. *)
Definition unreadable_resolved : Track :=
  mkTrack "track" {[ "dave" := "track/exercises/dave"; "zed" := "track/exercises/zed" ]}.

(** * Properties *)

(** ** Sets built by the loops *)

Lemma elem_of_add_all (l : list string) (set : gset string) (x : string) :
  x ∈ add_all l set ↔ x ∈ l ∨ x ∈ set.
Proof.
  unfold add_all. revert set.
  induction l as [|y l IH]; intros set; simpl.
  - rewrite elem_of_nil. tauto.
  - rewrite IH, elem_of_union, elem_of_singleton, elem_of_cons. tauto.
Qed.

Lemma isHiddenDir_dot (name : string) (b : bool) :
  isHiddenDir name = Returns b → dot_prefixed name = negb b.
Proof.
  destruct name as [|c r]; simpl; [discriminate|].
  intros H. injection H as <-. rewrite negb_involutive.
  destruct (Ascii.eqb_spec c ".") as [->|Hne]; [reflexivity|].
  symmetry. apply N.eqb_neq. intros Heq. apply Hne.
  rewrite <- (ascii_N_embedding c), Heq. reflexivity.
Qed.

(** ** The decoder *)

(** Goes through the fields that the key of a member can name; in each
    case the field read by the goal is untouched or the key is excluded. *)
Ltac member_cases :=
  lazymatch goal with
  | |- context [String.eqb (foldName ?k) ?f] =>
      destruct (String.eqb_spec (foldName k) f);
      [ cbv iota;
        first [ congruence
              | match goal with
                | |- context [let (_, _) := ?d in _] => destruct d; reflexivity
                end ]
      | member_cases ]
  | _ => reflexivity
  end.

Lemma Config_member_SolutionPattern (k : string) (v : json) (c : Config) (saved : option error) :
  foldName k ≠ "solution_pattern" →
  SolutionPattern (Config_member k v c saved).1 = SolutionPattern c.
Proof.
  intros Hk. unfold Config_member. destruct c. cbv zeta. member_cases.
Qed.

Lemma Config_member_Foregone (k : string) (v : json) (c : Config) (saved : option error) :
  foldName k ≠ "foregone" →
  Foregone (Config_member k v c saved).1 = Foregone c.
Proof.
  intros Hk. unfold Config_member. destruct c. cbv zeta. member_cases.
Qed.

Lemma Config_member_Deprecated (k : string) (v : json) (c : Config) (saved : option error) :
  foldName k ≠ "deprecated" →
  Deprecated (Config_member k v c saved).1 = Deprecated c.
Proof.
  intros Hk. unfold Config_member. destruct c. cbv zeta. member_cases.
Qed.

(** A field that no member names keeps its value through the decoding
    of an object. *)
Lemma decode_members_keeps {B} (get : Config → B) (field : string)
    (ms : list (string * json)) (c : Config) (saved : option error) :
  (∀ k v c saved, foldName k ≠ field → get (Config_member k v c saved).1 = get c) →
  existsb (fun kv : string * json => String.eqb (foldName kv.1) field) ms = false →
  get (decode_members Config_member ms c saved).1 = get c.
Proof.
  intros Hkeep. revert c saved. induction ms as [|[k v] ms IH]; intros c saved; simpl; [done|].
  intros H. apply orb_false_iff in H as [Hk Hms]. apply String.eqb_neq in Hk.
  destruct (Config_member k v c saved) as [c' saved'] eqn:Hm.
  rewrite (IH _ _ Hms), <- (Hkeep k v c saved Hk), Hm. reflexivity.
Qed.

Lemma Unmarshal_keeps {B} (get : Config → B) (field : string)
    (scan : Scanner) (bytes : string) (doc : json) (c : Config) :
  (∀ k v c saved, foldName k ≠ field → get (Config_member k v c saved).1 = get c) →
  scan bytes = inl doc →
  mentions field doc = false →
  get (Unmarshal scan bytes c).1 = get c.
Proof.
  intros Hkeep Hs Hm. unfold Unmarshal. rewrite Hs.
  destruct doc; simpl; try reflexivity. by apply (decode_members_keeps get field).
Qed.

(** *** Errors of the decoder *)

Lemma steady_bool (ctx : string) : steady (decode_bool ctx).
Proof. intros v old old' saved. destruct v, saved; reflexivity. Qed.

Lemma steady_string (ctx : string) : steady (decode_string ctx).
Proof. intros v old old' saved. destruct v, saved; reflexivity. Qed.

Lemma steady_int (ctx : string) : steady (decode_int ctx).
Proof.
  intros v old old' saved. destruct v, saved; try reflexivity;
    simpl; destruct (ParseInt lit); reflexivity.
Qed.

Fixpoint interface_errs_saved (v : json) (e : error) {struct v} :
  interface_errs v (Some e) = Some e.
Proof.
  destruct v as [| |lit| |vs|ms]; simpl; try reflexivity.
  - destruct (ParseFloat_ok lit); reflexivity.
  - induction vs as [|a vs IH]; [reflexivity|]. rewrite (interface_errs_saved a e). exact IH.
  - induction ms as [|[k a] ms IH]; [reflexivity|]. rewrite (interface_errs_saved a e). exact IH.
Qed.

Lemma interface_steady (v old old' : json) (saved : option error) :
  (decode_interface v old saved).2
  = match saved with
    | Some e => Some e
    | None => (decode_interface v old' None).2
    end.
Proof. destruct saved; [apply interface_errs_saved|reflexivity]. Qed.

Lemma decode_elems_steady {A} (dec : json → A → option error → A * option error)
    (zero : A) (vs : list json) (saved : option error) :
  steady dec →
  (decode_elems dec zero vs saved).2
  = match saved with
    | Some e => Some e
    | None => (decode_elems dec zero vs None).2
    end.
Proof.
  intros Hdec. destruct saved as [e|]; [|reflexivity].
  induction vs as [|v vs IH]; simpl; [reflexivity|].
  pose proof (Hdec v zero zero (Some e)) as Hv.
  destruct (dec v zero (Some e)) as [a s]. simpl in Hv. subst s.
  destruct (decode_elems dec zero vs (Some e)) as [l s]. exact IH.
Qed.

Lemma steady_slice {A} (type ctx : string)
    (dec : json → A → option error → A * option error) (zero : A) :
  steady dec → steady (decode_slice type ctx dec zero).
Proof.
  intros Hdec v old old' saved. destruct v; simpl;
    try (destruct saved; reflexivity).
  by apply decode_elems_steady.
Qed.

Lemma steady_strings (ctx : string) : steady (decode_strings ctx).
Proof. apply steady_slice, steady_string. Qed.

Lemma decode_members_steady {A}
    (member : string → json → A → option error → A * option error)
    (ms : list (string * json)) (a a' : A) (saved : option error) :
  (∀ k, steady (member k)) →
  (decode_members member ms a saved).2
  = match saved with
    | Some e => Some e
    | None => (decode_members member ms a' None).2
    end.
Proof.
  intros Hm. revert a a' saved. induction ms as [|[k v] ms IH]; intros a a' saved; simpl.
  - by destruct saved.
  - pose proof (Hm k v a a' saved) as Hv.
    destruct (member k v a saved) as [a1 s1], (member k v a' None) as [a2 s2].
    simpl in Hv. rewrite (IH a1 a2 s1). destruct saved as [e|]; subst s1; [done|].
    destruct s2 as [e|]; [|reflexivity]. symmetry. apply (IH a2 a2 (Some e)).
Qed.

Lemma steady_struct {A} (type ctx : string)
    (member : string → json → A → option error → A * option error) :
  (∀ k, steady (member k)) → steady (decode_struct type ctx member).
Proof.
  intros Hm v old old' saved. destruct v; simpl; try (destruct saved; reflexivity).
  by apply decode_members_steady.
Qed.

(** Closes one case of a struct member with the steadiness of the
    decoder of its field. *)
Ltac steady_field :=
  lazymatch goal with
  | |- (let (_, _) := ?d1 in _).2
       = match ?saved with
         | Some _ => _
         | None => (let (_, _) := ?d2 in _).2
         end =>
      let H := fresh "H" in
      assert (d1.2 = match saved with Some e => Some e | None => d2.2 end) as H
        by first [ apply steady_bool | apply steady_string | apply steady_int
                 | apply steady_strings | apply interface_steady
                 | apply steady_slice, steady_struct; assumption ];
      destruct d1, d2; exact H
  end.

Ltac steady_cases :=
  lazymatch goal with
  | |- context [String.eqb (foldName ?k) ?f] =>
      destruct (String.eqb_spec (foldName k) f); [ cbv iota; steady_field | steady_cases ]
  | _ => cbn; match goal with |- _ = match ?saved with _ => _ end => by destruct saved end
  end.

Lemma steady_Exercise_member (k : string) : steady (Exercise_member k).
Proof.
  intros v old old' saved. unfold Exercise_member. destruct old, old'. cbv zeta.
  steady_cases.
Qed.

Lemma steady_Config_member (k : string) : steady (Config_member k).
Proof.
  intros v old old' saved. unfold Config_member. destruct old, old'. cbv zeta.
  pose proof steady_Exercise_member as HE.
  steady_cases.
Qed.

(** An object decodes without error exactly when each of its members
    does. *)
Lemma decode_members_ok {A}
    (member : string → json → A → option error → A * option error)
    (ms : list (string * json)) (a a0 : A) :
  (∀ k, steady (member k)) →
  (decode_members member ms a None).2 = None
  ↔ ∀ k v, (k, v) ∈ ms → (member k v a0 None).2 = None.
Proof.
  intros Hm. revert a. induction ms as [|[k v] ms IH]; intros a; simpl.
  - split; [|done]. intros _ k v Hin. by apply elem_of_nil in Hin.
  - pose proof (Hm k v a a0 None) as Hv. simpl in Hv.
    destruct (member k v a None) as [a1 s1]. simpl in Hv.
    rewrite (decode_members_steady member ms a1 a1 s1 Hm). split.
    + intros H k' v' Hin. destruct s1 as [e|]; [done|].
      apply elem_of_cons in Hin as [[= -> ->]|Hin]; [done|]. by apply (IH a1).
    + intros H. rewrite Hv, (H k v) by (by left). apply IH. intros k' v' Hin. apply H. by right.
Qed.

(** *** What the decoder stores marshals *)

Fixpoint finite_stored (v : json) {struct v} : finite_numbers (stored v) = true.
Proof.
  destruct v as [| |lit| |vs|ms]; simpl; try reflexivity.
  - destruct (ParseFloat_ok lit) eqn:Hok; simpl; [exact Hok|reflexivity].
  - induction vs as [|a vs IH]; [reflexivity|]. simpl.
    rewrite (finite_stored a). exact IH.
  - induction ms as [|[k a] ms IH]; [reflexivity|]. simpl.
    rewrite (finite_stored a). exact IH.
Qed.

Lemma decode_interface_finite (v old : json) (saved : option error) :
  finite_numbers old = true → finite_numbers (decode_interface v old saved).1 = true.
Proof.
  intros Hold. unfold decode_interface. simpl.
  destruct v as [| |lit| |vs|ms]; try reflexivity; try apply (finite_stored (JArray _));
    try apply (finite_stored (JObject _)).
  destruct (ParseFloat_ok lit) eqn:Hok; [exact Hok|exact Hold].
Qed.

Lemma Exercise_member_finite (k : string) (v : json) (e : Exercise) (saved : option error) :
  finite_numbers (Exercise.UnlockedBy e) = true →
  finite_numbers (Exercise.UnlockedBy (Exercise_member k v e saved).1) = true.
Proof.
  intros He. unfold Exercise_member. destruct e as [core dep diff topics unl uuid slug].
  simpl in He. cbv zeta.
  pose proof (decode_interface_finite v unl saved He) as Hi.
  repeat lazymatch goal with
  | |- context [String.eqb (foldName ?k) ?f] =>
      destruct (String.eqb_spec (foldName k) f);
      [ cbv iota;
        match goal with
        | |- context [let (_, _) := ?d in _] => destruct d; simpl in *; assumption
        end | ]
  end.
  exact He.
Qed.

Lemma decode_Exercise_finite (ctx : string) (v : json) (e : Exercise) (saved : option error) :
  finite_numbers (Exercise.UnlockedBy e) = true →
  finite_numbers (Exercise.UnlockedBy (decode_Exercise ctx v e saved).1) = true.
Proof.
  intros He. unfold decode_Exercise, decode_struct. destruct v; try exact He.
  revert e saved He. induction members as [|[k v] ms IH]; intros e saved He; simpl; [exact He|].
  pose proof (Exercise_member_finite k v e saved He) as Hm.
  destruct (Exercise_member k v e saved) as [e' saved']. by apply IH.
Qed.

Lemma decode_elems_finite (ctx : string) (vs : list json) (saved : option error) :
  forallb (fun ex => finite_numbers (Exercise.UnlockedBy ex))
          (decode_elems (decode_Exercise ctx) Exercise.zero vs saved).1 = true.
Proof.
  revert saved. induction vs as [|v vs IH]; intros saved; simpl; [reflexivity|].
  pose proof (decode_Exercise_finite ctx v Exercise.zero saved eq_refl) as Hv.
  destruct (decode_Exercise ctx v Exercise.zero saved) as [e saved'].
  specialize (IH saved').
  destruct (decode_elems (decode_Exercise ctx) Exercise.zero vs saved') as [l saved''].
  simpl in *. by rewrite Hv, IH.
Qed.

Lemma Config_member_marshals (k : string) (v : json) (c : Config) (saved : option error) :
  marshals c → marshals (Config_member k v c saved).1.
Proof.
  unfold marshals, Config_member. destruct c as [p act dep exs fore ign lang repo slug sol].
  simpl. intros Hc. cbv zeta.
  assert (forallb (fun ex => finite_numbers (Exercise.UnlockedBy ex))
            (decode_slice "[]configlet.Exercise" "Config.exercises"
               (decode_Exercise "Config.exercises") Exercise.zero v exs saved).1 = true) as Hx.
  { destruct v; try exact Hc; [reflexivity|]. apply decode_elems_finite. }
  repeat lazymatch goal with
  | |- context [String.eqb (foldName ?k) ?f] =>
      destruct (String.eqb_spec (foldName k) f);
      [ cbv iota;
        match goal with
        | |- context [let (_, _) := ?d in _] => destruct d; simpl in *; assumption
        end | ]
  end.
  exact Hc.
Qed.

(** Whatever the input, [Unmarshal] leaves a manifest that marshals. *)
Lemma Unmarshal_marshals (scan : Scanner) (bytes : string) (c : Config) :
  marshals c → marshals (Unmarshal scan bytes c).1.
Proof.
  intros Hc. unfold Unmarshal. destruct (scan bytes) as [doc|e]; [|exact Hc].
  unfold decode_struct. destruct doc; try exact Hc.
  revert c Hc. generalize (@None error).
  induction members as [|[k v] ms IH]; intros saved c Hc; simpl; [exact Hc|].
  pose proof (Config_member_marshals k v c saved Hc) as Hm.
  destruct (Config_member k v c saved) as [c' saved']. by apply IH.
Qed.

Section Facts.
Context (scan : Scanner) (fs : Disk) (re : RegexpLib).

(** Every name that the loop of [Dirs] adds is the name of a directory
    entry other than ["exercises"] and without a leading dot. *)
Lemma Dirs_loop_spec (infos : list FileInfo) (dirs dirs' : gset string) :
  Dirs_loop infos dirs = Returns dirs' →
  ∀ x, x ∈ dirs' ↔
       x ∈ dirs ∨ ∃ info, info ∈ infos ∧ Name info = x ∧ IsDir info = true
                          ∧ x ≠ "exercises" ∧ dot_prefixed x = false.
Proof.
  revert dirs. induction infos as [|info infos IH]; intros dirs; simpl.
  - intros [= <-] x. split; [auto|]. intros [H|(i & Hi & _)]; [done|].
    by apply elem_of_nil in Hi.
  - destruct (IsDir info) eqn:Hd; simpl.
    + destruct (String.eqb_spec (Name info) "exercises") as [He|He]; simpl.
      * intros H x. rewrite (IH _ H x). split.
        -- intros [?|(i & Hi & ?)]; [by left|]. right. exists i. by rewrite elem_of_cons; auto.
        -- intros [?|(i & Hi & Hn & Hdi & Hx & Hdot)]; [by left|].
           apply elem_of_cons in Hi as [->|Hi]; [congruence|]. right. by exists i.
      * destruct (isHiddenDir (Name info)) as [shown|] eqn:Hh; simpl; [|discriminate].
        apply isHiddenDir_dot in Hh.
        intros H x. rewrite (IH _ H x). destruct shown; simpl in Hh.
        -- rewrite elem_of_union, elem_of_singleton. split.
           ++ intros [[->|?]|(i & Hi & ?)]; [|by left|].
              ** right. exists info. by rewrite elem_of_cons; auto.
              ** right. exists i. by rewrite elem_of_cons; auto.
           ++ intros [?|(i & Hi & Hn & ?)]; [by auto|].
              apply elem_of_cons in Hi as [->|Hi]; [by auto|]. right. by exists i.
        -- split.
           ++ intros [?|(i & Hi & ?)]; [by left|]. right. exists i. by rewrite elem_of_cons; auto.
           ++ intros [?|(i & Hi & Hn & Hdi & Hx & Hdot)]; [by left|].
              apply elem_of_cons in Hi as [->|Hi]; [congruence|]. right. by exists i.
    + intros H x. rewrite (IH _ H x). split.
      * intros [?|(i & Hi & ?)]; [by left|]. right. exists i. by rewrite elem_of_cons; auto.
      * intros [?|(i & Hi & Hn & Hdi & Hx & Hdot)]; [by left|].
        apply elem_of_cons in Hi as [->|Hi]; [congruence|]. right. by exists i.
Qed.

Lemma Dirs_returns (t : Track) (D : gset string) (e : option error) :
  Dirs fs t = Returns (D, e) →
  (e ≠ None ∧ D = ∅) ∨
  (e = None ∧ D = ∅ ∧ ∃ err, Stat fs (Join [path t; "exercises"]) = inr err) ∨
  (e = None ∧ ∃ infos, ReadDir fs (Join [path t; "exercises"]) = inl infos
                       ∧ Dirs_loop infos ∅ = Returns D).
Proof.
  unfold Dirs.
  destruct (Stat fs (Join [path t; "exercises"])) as [fi|err] eqn:Hs.
  - destruct (ReadDir fs (Join [path t; "exercises"])) as [infos|err] eqn:Hr.
    + destruct (Dirs_loop infos ∅) as [D'|] eqn:Hl; simpl; [|discriminate].
      intros [= <- <-]. right. right. split; [done|]. by exists infos.
    + intros [= <- <-]. by left.
  - destruct (IsNotExist err); intros [= <- <-].
    + right. left. repeat split. by exists err.
    + by left.
Qed.

(** What [Dirs] returns holds only names of directory entries that are
    not ["exercises"] and have no leading dot. *)
Lemma Dirs_elem (t : Track) (D : gset string) (e : option error) (x : string) :
  Dirs fs t = Returns (D, e) → x ∈ D →
  x ≠ "exercises" ∧ dot_prefixed x = false.
Proof.
  intros H Hx. apply Dirs_returns in H as [[_ ->]|[(_ & -> & _)|(_ & infos & _ & Hl)]].
  - by apply not_elem_of_empty in Hx.
  - by apply not_elem_of_empty in Hx.
  - apply (Dirs_loop_spec _ _ _ Hl) in Hx as [Hx|(i & _ & _ & _ & ? & ?)]; [|done].
    by apply not_elem_of_empty in Hx.
Qed.

(** [Track.Config] passes on what [Load] returns. *)
Lemma Track_Config_Load (t : Track) : Track_Config scan fs t = Load scan fs (configFile t).
Proof.
  unfold Track_Config. destruct (Load scan fs (configFile t)) as [c [e|]]; reflexivity.
Qed.

(** The loop of [NewTrack] records a directory for a slug only when
    [Stat] finds a directory whose name has no leading dot. *)
Lemma NewTrack_loop_dirs (slugs : list string) (t t' : Track) (e : option error) :
  NewTrack_loop fs slugs t = Returns (t', e) →
  path t' = path t ∧
  ∀ slug dir, dirs t' !! slug = Some dir →
    dirs t !! slug = Some dir ∨
    (slug ∈ slugs ∧ dir = Join [path t; "exercises"; slug] ∧
     ∃ fi, Stat fs dir = inl fi ∧ IsDir fi = true ∧ dot_prefixed (Name fi) = false).
Proof.
  revert t. induction slugs as [|slug slugs IH]; intros t; simpl.
  - intros [= <- <-]. split; [done|]. by left.
  - destruct (Stat fs (Join [path t; "exercises"; slug])) as [fi|err] eqn:Hs.
    + destruct (IsDir fi) eqn:Hd.
      * destruct (isHiddenDir (Name fi)) as [shown|] eqn:Hh; simpl; [|discriminate].
        apply isHiddenDir_dot in Hh. destruct shown; simpl in Hh.
        -- intros H. apply IH in H as [Hp H]. simpl in *. split; [done|].
           intros s d Hsd. apply H in Hsd as [Hsd|(Hin & -> & Hfi)].
           ++ destruct (decide (slug = s)) as [->|Hne].
              ** rewrite lookup_insert_eq in Hsd. injection Hsd as <-.
                 right. split; [by left|]. split; [done|]. by exists fi.
              ** rewrite lookup_insert_ne in Hsd by done. by left.
           ++ right. split; [by right|]. by split.
        -- intros H. apply IH in H as [Hp H]. split; [done|].
           intros s d Hsd. apply H in Hsd as [?|(Hin & ? & ?)]; [by left|].
           right. split; [by right|]. by split.
      * intros H. apply IH in H as [Hp H]. split; [done|].
        intros s d Hsd. apply H in Hsd as [?|(Hin & ? & ?)]; [by left|].
        right. split; [by right|]. by split.
    + destruct (IsNotExist err); simpl.
      * intros H. apply IH in H as [Hp H]. split; [done|].
        intros s d Hsd. apply H in Hsd as [?|(Hin & ? & ?)]; [by left|].
        right. split; [by right|]. by split.
      * intros [= <- <-]. split; [done|]. by left.
Qed.

Lemma add_all_empty (l : list string) : add_all l ∅ = list_to_set l.
Proof.
  apply set_eq. intros x. rewrite elem_of_add_all, elem_of_list_to_set.
  rewrite elem_of_empty. tauto.
Qed.

(** With a manifest that loads, [Track.Problems] is the set of Problems
    and [Track.Slugs] the set of Declared slugs. *)
Lemma Problems_loaded (t : Track) (c : Config) :
  Track_Config scan fs t = (c, None) → Problems scan fs t = (ProblemsOf c, None).
Proof.
  intros H. unfold Problems. rewrite H. by rewrite add_all_empty.
Qed.

Lemma Track_Slugs_loaded (t : Track) (c : Config) :
  Track_Config scan fs t = (c, None) → Track_Slugs scan fs t = (DeclaredSlugs c, None).
Proof.
  intros H. unfold Track_Slugs. rewrite H. f_equal.
  apply set_eq. intros x. unfold DeclaredSlugs.
  rewrite !elem_of_add_all, !elem_of_union, !elem_of_list_to_set, elem_of_empty. tauto.
Qed.



(** ** Counting slugs *)

Lemma wrap64_small (n : Z) : - 2 ^ 63 ≤ n < 2 ^ 63 → wrap64 n = n.
Proof. intros H. unfold wrap64. rewrite Z.mod_small; lia. Qed.

Lemma count_of_count_up (counts : gmap string Z) (y x : string) :
  count_of (count_up counts y) x
  = if decide (y = x) then wrap64 (count_of counts y + 1) else count_of counts x.
Proof.
  unfold count_of, count_up. destruct (decide (y = x)) as [->|Hne].
  - by rewrite lookup_insert_eq.
  - by rewrite lookup_insert_ne.
Qed.

Lemma occurrences_cons (x y : string) (l : list string) :
  occurrences x (y :: l) = if decide (y = x) then S (occurrences x l) else occurrences x l.
Proof.
  unfold occurrences. destruct (decide (y = x)) as [->|Hne].
  - by rewrite count_occ_cons_eq.
  - by rewrite count_occ_cons_neq.
Qed.

(** As long as the counters stay below [2^63], the loop adds to each
    counter the number of occurrences of its slug. *)
Lemma foldl_count_up (l : list string) (counts : gmap string Z) (bound : Z) :
  (∀ y, 0 ≤ count_of counts y ≤ bound) →
  bound + Z.of_nat (length l) < 2 ^ 63 →
  ∀ x, count_of (foldl count_up counts l) x = count_of counts x + Z.of_nat (occurrences x l).
Proof.
  revert counts bound. induction l as [|y l IH]; intros counts bound Hb Hlen x.
  - simpl. unfold occurrences. simpl. lia.
  - simpl foldl. simpl length in Hlen.
    assert (∀ z, count_of (count_up counts y) z
                 = if decide (y = z) then count_of counts y + 1 else count_of counts z) as Hstep.
    { intros z. rewrite count_of_count_up. destruct (decide (y = z)); [|done].
      apply wrap64_small. specialize (Hb y). lia. }
    rewrite (IH (count_up counts y) (bound + 1)).
    + rewrite Hstep, occurrences_cons. destruct (decide (y = x)) as [->|Hne]; lia.
    + intros z. rewrite Hstep. destruct (decide (y = z)).
      * specialize (Hb y). lia.
      * specialize (Hb z). lia.
    + lia.
Qed.

Lemma occurrences_pos (x : string) (l : list string) : x ∈ l ↔ (0 < occurrences x l)%nat.
Proof.
  unfold occurrences. rewrite list_elem_of_In. apply count_occ_In.
Qed.

Lemma occurrences_app (x : string) (l k : list string) :
  occurrences x (l ++ k) = (occurrences x l + occurrences x k)%nat.
Proof. apply count_occ_app. Qed.

(** The keys whose counter exceeds one. *)
Lemma elem_of_dupes (counts : gmap string Z) (x : string) :
  x ∈ (filter (fun sc : string * Z => 1 < sc.2) (map_to_list counts)).*1
  ↔ 1 < count_of counts x.
Proof.
  rewrite list_elem_of_fmap. unfold count_of. split.
  - intros ([k n] & -> & Hin). apply list_elem_of_filter in Hin as [Hn Hin].
    apply elem_of_map_to_list in Hin. simpl in *. by rewrite Hin.
  - destruct (counts !! x) as [n|] eqn:Hx; simpl; [|lia].
    intros Hn. exists (x, n). split; [done|].
    apply list_elem_of_filter. split; [done|]. by apply elem_of_map_to_list.
Qed.

Lemma NoDup_dupes (counts : gmap string Z) :
  NoDup (filter (fun sc : string * Z => 1 < sc.2) (map_to_list counts)).*1.
Proof.
  apply (sublist_NoDup _ ((map_to_list counts).*1)); [apply NoDup_fst_map_to_list|].
  apply fmap_sublist, sublist_filter.
Qed.

(** [sort.Strings] rearranges its argument in ascending order. *)
Lemma sort_Strings_spec (l : list string) :
  Sorted String.le (sort_Strings l) ∧ sort_Strings l ≡ₚ l.
Proof.
  split; [apply Sorted_merge_sort; apply _ | apply merge_sort_Permutation].
Qed.

(** What [DuplicateSlugs] returns for a manifest that loads. *)
Lemma DuplicateSlugs_loaded (t : Track) (c : Config) :
  Track_Config scan fs t = (c, None) →
  Z.of_nat (length (all_slugs c)) < 2 ^ 63 →
  ∃ dupes, DuplicateSlugs scan fs t = (dupes, None) ∧
           Sorted String.le dupes ∧ NoDup dupes ∧
           ∀ x, x ∈ dupes ↔ (2 ≤ occurrences x (all_slugs c))%nat.
Proof.
  intros Hc Hlen. unfold DuplicateSlugs. rewrite Hc.
  eexists. split; [reflexivity|].
  rewrite <- !foldl_app, <- ?app_assoc. fold (all_slugs c).
  set (dupes := (filter _ (map_to_list _)).*1).
  destruct (sort_Strings_spec dupes) as [Hs Hp].
  split; [exact Hs|]. split.
  - rewrite Hp. apply NoDup_dupes.
  - intros x. rewrite Hp. unfold dupes. rewrite elem_of_dupes.
    rewrite (foldl_count_up (all_slugs c) ∅ 0).
    + unfold count_of. rewrite lookup_empty. simpl. lia.
    + intros y. unfold count_of. rewrite lookup_empty. simpl. lia.
    + lia.
Qed.

(** A slug of two or more of the three sequences occurs at least twice,
    and one that occurs once is in exactly one of them. *)
Lemma sequences_with_le (x : string) (c : Config) :
  (sequences_with x c ≤ occurrences x (all_slugs c))%nat.
Proof.
  unfold sequences_with, all_slugs. rewrite !occurrences_app.
  pose proof (occurrences_pos x (Config_Slugs c)).
  pose proof (occurrences_pos x (Deprecated c)).
  pose proof (occurrences_pos x (Foregone c)).
  repeat case_decide; try lia; intuition lia.
Qed.

(** ** Walking a directory *)

Lemma findAllFiles_loop_mono (rec rec' : string → option (list string * option error))
    (dir : string) (infos : list FileInfo) (files : list string)
    (r : list string * option error) :
  (∀ p q, rec p = Some q → rec' p = Some q) →
  findAllFiles_loop rec dir infos files = Some r →
  findAllFiles_loop rec' dir infos files = Some r.
Proof.
  intros Hrec. revert files. induction infos as [|info infos IH]; intros files; simpl; [done|].
  destruct (IsDir info); [|apply IH].
  destruct (rec (dir ++ "/" ++ Name info)) as [[sub [e|]]|] eqn:Hr; [| |done].
  - by rewrite (Hrec _ _ Hr).
  - rewrite (Hrec _ _ Hr). apply IH.
Qed.

(** More fuel does not change a result. *)
Lemma findAllFiles_mono (n m : nat) (dir : string) (r : list string * option error) :
  (n ≤ m)%nat → findAllFiles fs n dir = Some r → findAllFiles fs m dir = Some r.
Proof.
  revert m dir r. induction n as [|n IH]; intros m dir r Hle; simpl; [done|].
  destruct m as [|m]; [lia|]. simpl.
  destruct (ReadDir fs dir) as [infos|e]; [|done].
  apply findAllFiles_loop_mono. intros p q. apply IH. lia.
Qed.

Lemma findAllFiles_loop_total (rec : string → option (list string * option error))
    (dir : string) (infos : list FileInfo) (files : list string) :
  (∀ info, info ∈ infos → IsDir info = true → is_Some (rec (dir ++ "/" ++ Name info))) →
  is_Some (findAllFiles_loop rec dir infos files).
Proof.
  revert files. induction infos as [|info infos IH]; intros files Hrec; simpl; [by eexists|].
  assert (∀ files, is_Some (findAllFiles_loop rec dir infos files)) as Hrest.
  { intros fl. apply IH. intros i Hi. apply Hrec. by right. }
  destruct (IsDir info) eqn:Hd; [|apply Hrest].
  destruct (Hrec info) as [[sub [e|]] ->]; [by left|done|by eexists|apply Hrest].
Qed.

(** Finitely many eventual properties hold together from some rank on. *)
Lemma bound_over_list {A} (l : list A) (Q : A → nat → Prop) :
  (∀ x, x ∈ l → ∃ n, ∀ m, (n ≤ m)%nat → Q x m) →
  ∃ n, ∀ x, x ∈ l → ∀ m, (n ≤ m)%nat → Q x m.
Proof.
  induction l as [|a l IH]; intros H.
  - exists 0%nat. intros x Hx. by apply elem_of_nil in Hx.
  - destruct IH as [n Hn]; [intros x Hx; apply H; by right|].
    destruct (H a) as [na Hna]; [by left|].
    exists (Nat.max n na). intros x Hx m Hm.
    apply elem_of_cons in Hx as [->|Hx]; [apply Hna|apply Hn]; try done; lia.
Qed.

(** On a finite tree [findAllFiles] returns, given enough fuel. *)
Lemma findAllFiles_terminates (dir : string) :
  Finite fs dir → ∃ n, ∀ m, (n ≤ m)%nat → is_Some (findAllFiles fs m dir).
Proof.
  induction 1 as [dir _ IH].
  destruct (ReadDir fs dir) as [infos|e] eqn:Hr.
  - destruct (bound_over_list infos
                (fun info m => IsDir info = true →
                               is_Some (findAllFiles fs m (dir ++ "/" ++ Name info))))
      as [n Hn].
    { intros info Hin. destruct (IsDir info) eqn:Hd.
      - destruct (IH infos info eq_refl Hin Hd) as [n Hn]. exists n. auto.
      - exists 0%nat. intros m _ Hf. discriminate Hf. }
    exists (S n). intros [|m] Hm; [lia|]. simpl. rewrite Hr.
    apply findAllFiles_loop_total. intros info Hin Hd. apply (Hn info Hin); [lia|done].
  - exists 1%nat. intros [|m] Hm; [lia|]. simpl. rewrite Hr. by eexists.
Qed.

Lemma findAllFiles_loop_files (rec : string → option (list string * option error))
    (dir : string) (infos : list FileInfo) (files0 files : list string) :
  (∀ p fl, rec p = Some (fl, None) → ∀ f, f ∈ fl ↔ InTree fs p f) →
  findAllFiles_loop rec dir infos files0 = Some (files, None) →
  ∀ f, f ∈ files ↔
       f ∈ files0 ∨
       ∃ info, info ∈ infos ∧
         ((IsDir info = false ∧ f = dir ++ "/" ++ Name info) ∨
          (IsDir info = true ∧ InTree fs (dir ++ "/" ++ Name info) f)).
Proof.
  intros Hrec. revert files0. induction infos as [|info infos IH]; intros files0; simpl.
  - intros [= <-] f. split; [by left|]. intros [?|(i & Hi & _)]; [done|].
    by apply elem_of_nil in Hi.
  - destruct (IsDir info) eqn:Hd.
    + destruct (rec (dir ++ "/" ++ Name info)) as [[sub [e|]]|] eqn:Hr; [done| |done].
      intros H f. rewrite (IH _ H f), elem_of_app, (Hrec _ _ Hr f). split.
      * intros [[?|?]|(i & Hi & Hc)]; [by left| |].
        -- right. exists info. split; [by left|]. right. by split.
        -- right. exists i. split; [by right|done].
      * intros [?|(i & Hi & Hc)]; [by left; left|].
        apply elem_of_cons in Hi as [->|Hi].
        -- destruct Hc as [[Hf _]|[_ Ht]]; [congruence|]. by left; right.
        -- right. by exists i.
    + intros H f. rewrite (IH _ H f), elem_of_app, list_elem_of_singleton. split.
      * intros [[?| ->]|(i & Hi & Hc)]; [by left| |].
        -- right. exists info. split; [by left|]. left. by split.
        -- right. exists i. split; [by right|done].
      * intros [?|(i & Hi & Hc)]; [by left; left|].
        apply elem_of_cons in Hi as [->|Hi].
        -- destruct Hc as [[_ ->]|[Hf _]]; [|congruence]. by left; right.
        -- right. by exists i.
Qed.

(** Without error, [findAllFiles] returns exactly the files of the tree
    below [dir]. *)
Lemma findAllFiles_files (n : nat) (dir : string) (files : list string) :
  findAllFiles fs n dir = Some (files, None) →
  ∀ f, f ∈ files ↔ InTree fs dir f.
Proof.
  revert dir files. induction n as [|n IH]; intros dir files; simpl; [done|].
  destruct (ReadDir fs dir) as [infos|e] eqn:Hr; [|done].
  intros H f. rewrite (findAllFiles_loop_files _ _ _ _ _ IH H f). split.
  - intros [Hf|(info & Hin & [[Hd ->]|[Hd Ht]])].
    + by apply elem_of_nil in Hf.
    + by eapply InTree_here.
    + by eapply InTree_below.
  - intros Ht. right. inversion Ht as [d es i Hr' Hin Hd|d es i f' Hr' Hin Hd Hsub]; subst.
    + rewrite Hr in Hr'. injection Hr' as <-. exists i. split; [done|]. by left.
    + rewrite Hr in Hr'. injection Hr' as <-. exists i. split; [done|]. by right.
Qed.

(** ** The missing-example query *)

Lemma hasExampleFile_loaded (t : Track) (c : Config) (r : Regexp re) (files : list string) :
  Track_Config scan fs t = (c, None) →
  Compile re (SolutionPattern c) = inl r →
  hasExampleFile scan fs re t files = (existsb (has_match re r) files, None).
Proof. intros Hc Hr. unfold hasExampleFile. by rewrite Hc, Hr. Qed.

(** A pattern that does not compile: no file counts, and the error comes
    back from [hasExampleFile]. *)
Lemma hasExampleFile_bad_pattern (t : Track) (c : Config) (e : error) (files : list string) :
  Track_Config scan fs t = (c, None) →
  Compile re (SolutionPattern c) = inr e →
  hasExampleFile scan fs re t files = (false, Some e).
Proof. intros Hc Hr. unfold hasExampleFile. by rewrite Hc, Hr. Qed.

Lemma lookup_dir (t : Track) (x dir : string) :
  dir ≠ "" → (default "" (dirs t !! x) = dir ↔ dirs t !! x = Some dir).
Proof.
  intros Hne. destruct (dirs t !! x) as [d|]; simpl; split; congruence.
Qed.

(** A run of the loop without error: every directory was listed, and the
    slugs added are those whose files [hasExampleFile] turns down. *)
Lemma ProblemsLackingExample_loop_ok (fuel : nat) (t : Track)
    (problems issues out : list string) :
  ProblemsLackingExample_loop scan fs re fuel t problems issues = Some (out, None) →
  (∀ x dir, x ∈ problems → dirs t !! x = Some dir → dir ≠ "" →
            ∃ files, findAllFiles fs fuel dir = Some (files, None)) ∧
  (∀ x, x ∈ out ↔
        x ∈ issues ∨
        (x ∈ problems ∧ ∃ dir files,
            dirs t !! x = Some dir ∧ dir ≠ "" ∧
            findAllFiles fs fuel dir = Some (files, None) ∧
            (hasExampleFile scan fs re t files).1 = false)).
Proof.
  revert issues. induction problems as [|p rest IH]; intros issues; simpl.
  - intros [= <-]. split.
    + intros x dir Hx. by apply elem_of_nil in Hx.
    + intros x. split; [by left|]. intros [?|[Hx _]]; [done|]. by apply elem_of_nil in Hx.
  - destruct (String.eqb_spec (default "" (dirs t !! p)) "") as [He|Hne].
    + intros H. destruct (IH _ H) as [Ha Hb]. split.
      * intros x dir Hx Hd Hdne. apply elem_of_cons in Hx as [->|Hx]; [|by eapply Ha].
        rewrite Hd in He. simpl in He. congruence.
      * intros x. rewrite (Hb x). split.
        -- intros [?|[Hx Hr]]; [by left|]. right. split; [by right|done].
        -- intros [?|[Hx Hr]]; [by left|]. apply elem_of_cons in Hx as [->|Hx].
           ++ destruct Hr as (dir & files & Hd & Hdne & _). rewrite Hd in He. simpl in He.
              congruence.
           ++ right. by split.
    + set (d := default "" (dirs t !! p)) in *.
      assert (dirs t !! p = Some d) as Hp by (by apply lookup_dir).
      destruct (findAllFiles fs fuel d) as [[files [e|]]|] eqn:Hf; [done| |done].
      destruct (hasExampleFile scan fs re t files) as [found err] eqn:Hh.
      intros H. destruct (IH _ H) as [Ha Hb]. split.
      * intros x dir Hx Hd Hdne. apply elem_of_cons in Hx as [->|Hx]; [|by eapply Ha].
        rewrite Hp in Hd. injection Hd as <-. by exists files.
      * intros x. rewrite (Hb x). split.
        -- intros [Hx|[Hx Hr]].
           ++ destruct found; [by left|]. apply elem_of_app in Hx as [Hx|Hx]; [by left|].
              apply list_elem_of_singleton in Hx as ->. right. split; [by left|].
              exists d, files. by rewrite Hh.
           ++ right. split; [by right|done].
        -- intros [Hx|[Hx Hr]].
           ++ left. destruct found; [done|]. apply elem_of_app. by left.
           ++ apply elem_of_cons in Hx as [->|Hx]; [|right; by split].
              destruct Hr as (dir & files' & Hd & _ & Hf' & Hfound).
              rewrite Hp in Hd. injection Hd as <-. rewrite Hf in Hf'. injection Hf' as <-.
              rewrite Hh in Hfound. simpl in Hfound. subst found.
              left. apply elem_of_app. right. by apply list_elem_of_singleton.
Qed.


Lemma ProblemsLackingExample_loop_total (fuel : nat) (t : Track)
    (problems issues : list string) :
  (∀ x dir, x ∈ problems → dirs t !! x = Some dir → is_Some (findAllFiles fs fuel dir)) →
  is_Some (ProblemsLackingExample_loop scan fs re fuel t problems issues).
Proof.
  revert issues. induction problems as [|p rest IH]; intros issues Hall; simpl; [by eexists|].
  assert (∀ issues, is_Some (ProblemsLackingExample_loop scan fs re fuel t rest issues)) as Hrest.
  { intros l. apply IH. intros x dir Hx. apply Hall. by right. }
  destruct (String.eqb_spec (default "" (dirs t !! p)) "") as [He|Hne]; [apply Hrest|].
  set (d := default "" (dirs t !! p)) in *.
  assert (dirs t !! p = Some d) as Hp by (by apply lookup_dir).
  destruct (Hall p d) as [[files [e|]] ->]; [by left|done|by eexists|].
  destruct (hasExampleFile scan fs re t files). apply Hrest.
Qed.

Lemma existsb_false {A} (f : A → bool) (l : list A) :
  existsb f l = false ↔ ∀ x, x ∈ l → f x = false.
Proof.
  induction l as [|a l IH]; simpl.
  - split; [|done]. intros _ x Hx. by apply elem_of_nil in Hx.
  - rewrite orb_false_iff, IH. split.
    + intros [Ha Hl] x Hx. apply elem_of_cons in Hx as [->|Hx]; auto.
    + intros H. split; [apply H; by left|]. intros x Hx. apply H. by right.
Qed.

Lemma finite_within_sound (n : nat) (dir : string) :
  finite_within fs n dir = true → Finite fs dir.
Proof.
  revert dir. induction n as [|n IH]; intros dir; simpl; [done|].
  intros H. constructor. intros infos info Hr Hin Hd. rewrite Hr in H.
  rewrite forallb_forall in H. apply list_elem_of_In in Hin.
  specialize (H info Hin). rewrite Hd in H. simpl in H. by apply IH.
Qed.

Lemma finite_dirs_check (n : nat) (t : Track) :
  forallb (fun kv : string * string => finite_within fs n kv.2) (map_to_list (dirs t)) = true →
  ∀ slug dir, dirs t !! slug = Some dir → Finite fs dir.
Proof.
  intros H slug dir Hd. rewrite forallb_forall in H.
  apply (finite_within_sound n), (H (slug, dir)).
  by apply list_elem_of_In, elem_of_map_to_list.
Qed.

(** With enough fuel the query returns. *)
Lemma ProblemsLackingExample_terminates (t : Track) :
  (∀ slug dir, dirs t !! slug = Some dir → Finite fs dir) →
  ∃ n, ∀ fuel, (n ≤ fuel)%nat → is_Some (ProblemsLackingExample scan fs re fuel t).
Proof.
  intros Hfin. unfold ProblemsLackingExample.
  destruct (Track_Config scan fs t) as [c [e|]]; [exists 0%nat; by eexists|].
  destruct (bound_over_list (Config_Slugs c)
              (fun x m => ∀ dir, dirs t !! x = Some dir → is_Some (findAllFiles fs m dir)))
    as [n Hn].
  { intros x _. destruct (dirs t !! x) as [dir|] eqn:Hd.
    - destruct (findAllFiles_terminates dir (Hfin _ _ Hd)) as [n Hn].
      exists n. intros m Hm d [= <-]. by apply Hn.
    - by exists 0%nat. }
  exists n. intros fuel Hfuel. apply ProblemsLackingExample_loop_total.
  intros x dir Hx Hd. by apply (Hn x Hx fuel Hfuel).
Qed.

(** With a pattern that does not compile the query reports no error and
    flags every exercise that has a directory. *)
Lemma ProblemsLackingExample_bad_pattern (fuel : nat) (t : Track) (c : Config)
    (e : error) (issues : list string) :
  Track_Config scan fs t = (c, None) →
  Compile re (SolutionPattern c) = inr e →
  ProblemsLackingExample scan fs re fuel t = Some (issues, None) →
  ∀ slug, slug ∈ issues ↔ slug ∈ Config_Slugs c ∧ ∃ dir, dirs t !! slug = Some dir ∧ dir ≠ "".
Proof.
  intros Hc He. unfold ProblemsLackingExample. rewrite Hc. intros H slug.
  destruct (ProblemsLackingExample_loop_ok _ _ _ _ _ H) as [Ha Hb]. rewrite (Hb slug). split.
  - intros [Hx|(Hx & dir & files & Hd & Hne & _)]; [by apply elem_of_nil in Hx|].
    split; [done|]. by exists dir.
  - intros (Hx & dir & Hd & Hne). right. split; [done|].
    destruct (Ha slug dir Hx Hd Hne) as [files Hf]. exists dir, files.
    by rewrite (hasExampleFile_bad_pattern t c e files Hc He).
Qed.

(** What [Load] returns marshals, also next to an error. *)
Lemma Load_marshals (file : string) : marshals (Load scan fs file).1.
Proof.
  unfold Load. destruct (ReadFile fs file) as [bytes|e]; [|reflexivity].
  pose proof (Unmarshal_marshals scan bytes NewConfig eq_refl) as Hm.
  by destruct (Unmarshal scan bytes NewConfig) as [c [e|]].
Qed.

(** ** [uniq] *)

Lemma uniques_lookup (items : list string) (m : gmap string bool) (x : string) :
  is_Some (foldl (fun m item => <[item := true]> m) m items !! x)
  ↔ x ∈ items ∨ is_Some (m !! x).
Proof.
  revert m. induction items as [|y items IH]; intros m; simpl.
  - rewrite elem_of_nil. tauto.
  - rewrite IH, elem_of_cons. destruct (decide (y = x)) as [->|Hne].
    + rewrite lookup_insert_eq. split; [intros _; by left; left|intros _; right; by eexists].
    + rewrite lookup_insert_ne by done. split; [tauto|]. intros [[?|?]|?]; [congruence|tauto..].
Qed.

(** ** More on [Dirs] and [NewTrack] *)

(** The loop of [Dirs] panics exactly on a directory entry without name. *)
Lemma Dirs_loop_panics (infos : list FileInfo) (dirs : gset string) :
  Dirs_loop infos dirs = Panics
  ↔ ∃ info, info ∈ infos ∧ IsDir info = true ∧ Name info = "".
Proof.
  revert dirs. induction infos as [|info infos IH]; intros dirs; simpl.
  - split; [done|]. intros (i & Hi & _). by apply elem_of_nil in Hi.
  - assert (∀ dirs', Dirs_loop infos dirs' = Panics →
                     ∃ i, i ∈ info :: infos ∧ IsDir i = true ∧ Name i = "") as Hrest.
    { intros dirs' H. apply IH in H as (i & Hi & Hd). exists i. split; [by right|done]. }
    destruct (IsDir info) eqn:Hd; simpl.
    + destruct (String.eqb_spec (Name info) "exercises") as [He|He]; simpl.
      * split; [apply Hrest|]. intros (i & Hi & Hdi & Hn).
        apply elem_of_cons in Hi as [->|Hi]; [congruence|]. apply IH. by exists i.
      * destruct (Name info) as [|ch rest] eqn:Hn; simpl.
        -- split; [|done]. intros _. exists info. split; [by left|done].
        -- split; [apply Hrest|]. intros (i & Hi & Hdi & Hni).
           apply elem_of_cons in Hi as [->|Hi]; [congruence|]. apply IH. by exists i.
    + split; [apply Hrest|]. intros (i & Hi & Hdi & Hn).
      apply elem_of_cons in Hi as [->|Hi]; [congruence|]. apply IH. by exists i.
Qed.

Lemma Clean_nonempty (p : string) : Clean p ≠ "".
Proof.
  unfold Clean. destruct p as [|c p]; [done|].
  destruct (Ascii.eqb c "/"); [done|].
  by destruct (String.eqb_spec (String.concat "/"
       (rev (fold_left (clean_step false) (components "" (String c p)) []))) "").
Qed.

(** A path joined from elements one of which is not empty is not empty. *)
Lemma Join_nonempty (elem : list string) :
  (∃ e, e ∈ elem ∧ e ≠ "") → Join elem ≠ "".
Proof.
  induction elem as [|e elem IH]; intros (x & Hx & Hne).
  - by apply elem_of_nil in Hx.
  - unfold Join; fold Join. destruct (String.eqb_spec e "") as [->|He].
    + apply IH. apply elem_of_cons in Hx as [->|Hx]; [done|]. by exists x.
    + apply Clean_nonempty.
Qed.

Lemma exercise_dir_nonempty (root slug : string) : Join [root; "exercises"; slug] ≠ "".
Proof. apply Join_nonempty. exists "exercises". split; [|done]. right. by left. Qed.

(** The manifest of a track only depends on where the track lives. *)
Lemma Track_Config_path (t t' : Track) :
  path t = path t' → Track_Config scan fs t = Track_Config scan fs t'.
Proof. intros H. unfold Track_Config, configFile. by rewrite H. Qed.

(** The loop of [NewTrack] keeps a directory that it recorded. *)
Lemma NewTrack_loop_keeps (slugs : list string) (t t' : Track) (e : option error) (s : string) :
  NewTrack_loop fs slugs t = Returns (t', e) →
  dirs t !! s = Some (Join [path t; "exercises"; s]) →
  dirs t' !! s = Some (Join [path t; "exercises"; s]).
Proof.
  revert t. induction slugs as [|slug slugs IH]; intros t; simpl.
  - by intros [= <- <-].
  - destruct (Stat fs (Join [path t; "exercises"; slug])) as [fi|err].
    + destruct (IsDir fi); [|apply IH].
      destruct (isHiddenDir (Name fi)) as [[|]|]; simpl; [|apply IH|done].
      intros H Hs. apply (IH _ H). simpl.
      destruct (decide (slug = s)) as [->|Hne]; [apply lookup_insert_eq|].
      by rewrite lookup_insert_ne.
    + destruct (IsNotExist err); simpl; [apply IH|]. by intros [= <- <-].
Qed.

(** A run of the loop without error: [Stat] only failed with "does not
    exist", and every shown directory was recorded. *)
Lemma NewTrack_loop_complete (slugs : list string) (t t' : Track) :
  NewTrack_loop fs slugs t = Returns (t', None) →
  ∀ slug, slug ∈ slugs →
    match Stat fs (Join [path t; "exercises"; slug]) with
    | inl fi => IsDir fi = true → dot_prefixed (Name fi) = false →
                dirs t' !! slug = Some (Join [path t; "exercises"; slug])
    | inr err => IsNotExist err = true
    end.
Proof.
  revert t. induction slugs as [|s slugs IH]; intros t; simpl.
  - intros _ slug Hin. by apply elem_of_nil in Hin.
  - destruct (Stat fs (Join [path t; "exercises"; s])) as [fi|err] eqn:Hs.
    + destruct (IsDir fi) eqn:Hd.
      * destruct (isHiddenDir (Name fi)) as [shown|] eqn:Hh; simpl; [|done].
        apply isHiddenDir_dot in Hh. destruct shown; simpl in Hh.
        -- intros H slug Hin. apply elem_of_cons in Hin as [->|Hin].
           ++ rewrite Hs. intros _ _.
              apply (NewTrack_loop_keeps _ _ _ _ _ H). simpl. apply lookup_insert_eq.
           ++ apply (IH _ H slug Hin).
        -- intros H slug Hin. apply elem_of_cons in Hin as [->|Hin]; [|by apply IH].
           rewrite Hs. congruence.
      * intros H slug Hin. apply elem_of_cons in Hin as [->|Hin]; [|by apply IH].
        rewrite Hs. congruence.
    + destruct (IsNotExist err) eqn:Hne; simpl; [|done].
      intros H slug Hin. apply elem_of_cons in Hin as [->|Hin]; [|by apply IH].
      by rewrite Hs.
Qed.

(** A run of the loop that ends with an error met a slug on which [Stat]
    failed otherwise than with "does not exist". *)
Lemma NewTrack_loop_error (slugs : list string) (t t' : Track) (err : error) :
  NewTrack_loop fs slugs t = Returns (t', Some err) →
  ∃ slug, slug ∈ slugs ∧ Stat fs (Join [path t; "exercises"; slug]) = inr err
          ∧ IsNotExist err = false.
Proof.
  revert t. induction slugs as [|s slugs IH]; intros t; simpl; [done|].
  assert (∀ t0, path t0 = path t → NewTrack_loop fs slugs t0 = Returns (t', Some err) →
            ∃ slug, slug ∈ s :: slugs ∧ Stat fs (Join [path t; "exercises"; slug]) = inr err
                    ∧ IsNotExist err = false) as Hrest.
  { intros t0 Hp H. apply IH in H as (slug & Hin & Hst). rewrite Hp in Hst.
    exists slug. split; [by right|done]. }
  destruct (Stat fs (Join [path t; "exercises"; s])) as [fi|e] eqn:Hs.
  - destruct (IsDir fi); [|by apply Hrest].
    destruct (isHiddenDir (Name fi)) as [[|]|]; simpl; [by apply Hrest|by apply Hrest|done].
  - destruct (IsNotExist e) eqn:Hne; simpl; [by apply Hrest|].
    intros [= <- <-]. exists s. split; [by left|done].
Qed.

(** What the missing-example query flags when it returns no error. *)
Lemma ProblemsLackingExample_characterised (fuel : nat) (t : Track) (c : Config)
    (r : Regexp re) (issues : list string) :
  Track_Config scan fs t = (c, None) →
  Compile re (SolutionPattern c) = inl r →
  ProblemsLackingExample scan fs re fuel t = Some (issues, None) →
  ∀ slug, slug ∈ issues ↔
          slug ∈ Config_Slugs c ∧
          ∃ dir, dirs t !! slug = Some dir ∧ dir ≠ "" ∧
                 ∀ file, InTree fs dir file → has_match re r file = false.
Proof.
  intros Hc Hr Hrun slug. unfold ProblemsLackingExample in Hrun. rewrite Hc in Hrun.
  destruct (ProblemsLackingExample_loop_ok _ _ _ _ _ Hrun) as [Ha Hb].
  rewrite (Hb slug). split.
  - intros [Hx|(Hx & dir & files & Hd & Hne & Hf & Hh)]; [by apply elem_of_nil in Hx|].
    split; [done|]. exists dir. split; [done|]. split; [done|].
    intros file Hfile. rewrite (hasExampleFile_loaded t c r files Hc Hr) in Hh.
    simpl in Hh. rewrite existsb_false in Hh. apply Hh.
    by apply (findAllFiles_files fuel dir files Hf).
  - intros (Hx & dir & Hd & Hne & Hall). right. split; [done|].
    destruct (Ha slug dir Hx Hd Hne) as [files Hf]. exists dir, files.
    split; [done|]. split; [done|]. split; [done|].
    rewrite (hasExampleFile_loaded t c r files Hc Hr). simpl.
    apply existsb_false. intros file Hfile. apply Hall.
    by apply (findAllFiles_files fuel dir files Hf).
Qed.

(** What [NewTrack] records when it returns no error. *)
Lemma NewTrack_returns (root : string) (c : Config) (t : Track) :
  Track_Config scan fs (mkTrack root ∅) = (c, None) →
  NewTrack scan fs root = Returns (t, None) →
  path t = root ∧
  ∀ slug dir, dirs t !! slug = Some dir ↔
    slug ∈ DeclaredSlugs c ∧ dir = Join [root; "exercises"; slug] ∧
    ∃ fi, Stat fs dir = inl fi ∧ IsDir fi = true ∧ dot_prefixed (Name fi) = false.
Proof.
  intros Hc HN. unfold NewTrack in HN. rewrite (Track_Slugs_loaded _ _ Hc) in HN.
  destruct (NewTrack_loop_dirs _ _ _ _ HN) as [Hp Hdirs]. simpl in Hp, Hdirs.
  split; [exact Hp|]. intros slug dir. split.
  - intros Hd. apply Hdirs in Hd as [Hd|(Hin & -> & Hfi)]; [by rewrite lookup_empty in Hd|].
    apply elem_of_elements in Hin. by split.
  - intros (Hin & -> & fi & Hs & Hd & Hdot).
    pose proof (NewTrack_loop_complete _ _ _ HN slug) as Hcomp. simpl in Hcomp.
    rewrite Hs in Hcomp. apply Hcomp; [by apply elem_of_elements|done..].
Qed.

(** ** More on [findAllFiles] *)

Lemma prefix_iff (a b : string) : String.prefix a b = true ↔ ∃ r, b = a ++ r.
Proof.
  revert b. induction a as [|c a IH]; intros b.
  - split; [intros _; exists b; reflexivity|]. intros _. by destruct b.
  - destruct b as [|d b]; simpl.
    + split; [done|]. intros [r Hr]. change (String c a ++ r) with (String c (a ++ r)) in Hr.
      discriminate Hr.
    + destruct (Ascii.ascii_dec c d) as [->|Hne].
      * rewrite IH. split; intros [r Hr]; exists r.
        -- change (String d a ++ r) with (String d (a ++ r)). by rewrite Hr.
        -- change (String d a ++ r) with (String d (a ++ r)) in Hr. by injection Hr.
      * split; [done|]. intros [r Hr].
        change (String c a ++ r) with (String c (a ++ r)) in Hr. injection Hr as ? ?.
        congruence.
Qed.

Lemma append_assoc (a b c : string) : (a ++ b) ++ c = a ++ b ++ c.
Proof.
  induction a as [|x a IH]; [reflexivity|].
  change (String x ((a ++ b) ++ c) = String x (a ++ b ++ c)). by rewrite IH.
Qed.

(** Every file of the tree below [dir] has a path that extends [dir]. *)
Lemma InTree_prefix (dir file : string) :
  InTree fs dir file → String.prefix (dir ++ "/") file = true.
Proof.
  induction 1 as [dir infos info _ _ _|dir infos info file _ _ _ _ IH]; apply prefix_iff.
  - exists (Name info). by rewrite append_assoc.
  - apply prefix_iff in IH as [r ->]. exists (Name info ++ "/" ++ r).
    by rewrite !append_assoc.
Qed.





(** ** More on the queries *)

Lemma ProblemsLackingExample_loop_added (fuel : nat) (t : Track)
    (problems issues out : list string) (e : option error) :
  ProblemsLackingExample_loop scan fs re fuel t problems issues = Some (out, e) →
  ∃ added, out = (issues ++ added)%list ∧ added `sublist_of` problems ∧
           ∀ x, x ∈ added → ∃ dir, dirs t !! x = Some dir ∧ dir ≠ "".
Proof.
  revert issues. induction problems as [|p rest IH]; intros issues; simpl.
  - intros [= <- <-]. exists []. rewrite app_nil_r. split; [done|]. split; [done|].
    intros x Hx. by apply elem_of_nil in Hx.
  - destruct (String.eqb_spec (default "" (dirs t !! p)) "") as [He|Hne].
    + intros H. destruct (IH _ H) as (added & -> & Hsub & Hdir).
      exists added. split; [done|]. split; [by apply sublist_cons|done].
    + set (d := default "" (dirs t !! p)) in *.
      assert (dirs t !! p = Some d) as Hp by (by apply lookup_dir).
      destruct (findAllFiles fs fuel d) as [[files [err|]]|]; [| |done].
      * intros [= <- <-]. exists []. rewrite app_nil_r. split; [done|].
        split; [apply sublist_nil_l|]. intros x Hx. by apply elem_of_nil in Hx.
      * destruct (hasExampleFile scan fs re t files) as [[|] err].
        -- intros H. destruct (IH _ H) as (added & -> & Hsub & Hdir).
           exists added. split; [done|]. split; [by apply sublist_cons|done].
        -- intros H. destruct (IH _ H) as (added & -> & Hsub & Hdir).
           exists (p :: added). split; [by rewrite <- app_assoc|].
           split; [by apply sublist_skip|]. intros x Hx.
           apply elem_of_cons in Hx as [->|Hx]; [by exists d|by apply Hdir].
Qed.

Lemma hasExampleFile_nil (t : Track) : (hasExampleFile scan fs re t []).1 = false.
Proof.
  unfold hasExampleFile. destruct (Track_Config scan fs t) as [c [e|]]; [done|].
  by destruct (Compile re (SolutionPattern c)).
Qed.

Lemma Config_member_unknown (k : string) (v : json) (c : Config) (saved : option error) :
  names_field k = false → Config_member k v c saved = (c, saved).
Proof.
  intros H. unfold names_field in H. simpl in H.
  repeat (apply orb_false_iff in H as [?H H]).
  unfold Config_member. destruct c. cbv zeta.
  repeat match goal with
         | Hx : String.eqb (foldName k) _ = false |- _ => rewrite Hx; clear Hx
         end.
  reflexivity.
Qed.

Lemma decode_members_known (ms : list (string * json)) (c : Config) (saved : option error) :
  decode_members Config_member ms c saved
  = decode_members Config_member
      (filter (fun kv : string * json => names_field kv.1 = true) ms) c saved.
Proof.
  revert c saved. induction ms as [|[k v] ms IH]; intros c saved; [done|].
  rewrite filter_cons. simpl. destruct (names_field k) eqn:Hk.
  - rewrite decide_True by done. simpl.
    destruct (Config_member k v c saved) as [c' saved']. apply IH.
  - rewrite decide_False by done. rewrite (Config_member_unknown k v c saved Hk). apply IH.
Qed.

End Facts.

Section Claims.
Context (scan : Scanner) (fs : Disk) (re : RegexpLib).

(** [HasValidConfig] answers true whatever [Load] returned. *)
Lemma HasValidConfig_true (t : Track) : HasValidConfig scan fs t = true.
Proof.
  unfold HasValidConfig. rewrite Track_Config_Load.
  pose proof (Load_marshals scan fs (configFile t)) as Hm.
  destruct (Load scan fs (configFile t)) as [c e]. unfold MarshalIndent_err.
  unfold marshals in Hm. simpl in Hm. by rewrite Hm.
Qed.

(** C7.  When [exercises/] does not exist, [Dirs] returns the empty set
    and no error; any other error of [Stat], and any error of [ReadDir],
    is returned. *)
Theorem Dirs_without_exercises (t : Track) :
  let exercises := Join [path t; "exercises"] in
  (∀ err, Stat fs exercises = inr err → IsNotExist err = true →
          Dirs fs t = Returns (∅, None)) ∧
  (∀ err, Stat fs exercises = inr err → IsNotExist err = false →
          Dirs fs t = Returns (∅, Some err)) ∧
  (∀ fi err, Stat fs exercises = inl fi → ReadDir fs exercises = inr err →
             Dirs fs t = Returns (∅, Some err)).
Proof.
  intros exercises. subst exercises. unfold Dirs. repeat split.
  - intros err -> ->. reflexivity.
  - intros err -> ->. reflexivity.
  - intros fi err -> ->. reflexivity.
Qed.

(** C8.  A name with a leading dot is never in the set that [Dirs]
    returns, and [NewTrack] records no directory for a slug whose
    [exercises/<slug>] has such a name. *)
Theorem hidden_directories_invisible :
  (∀ t D e name, Dirs fs t = Returns (D, e) → dot_prefixed name = true → name ∉ D) ∧
  (∀ root t e slug fi,
     NewTrack scan fs root = Returns (t, e) →
     Stat fs (Join [root; "exercises"; slug]) = inl fi →
     dot_prefixed (Name fi) = true →
     dirs t !! slug = None).
Proof.
  split.
  - intros t D e name HD Hdot Hin.
    destruct (Dirs_elem fs t D e name HD Hin) as [_ H]. congruence.
  - intros root t e slug fi HN Hs Hdot. unfold NewTrack in HN.
    destruct (Track_Slugs scan fs (mkTrack root ∅)) as [slugs [err|]].
    + injection HN as <- <-. apply lookup_empty.
    + apply NewTrack_loop_dirs in HN as [_ H]. simpl in H.
      destruct (dirs t !! slug) as [dir|] eqn:Hd; [|done].
      apply H in Hd as [Hd|(_ & -> & fi' & Hs' & _ & Hdot')].
      * by rewrite lookup_empty in Hd.
      * rewrite Hs in Hs'. injection Hs' as <-. congruence.
Qed.


(** C10, as amended.  [Dirs] never returns the name ["exercises"].  So a
    slug ["exercises"] of the [exercises] sequence is reported by
    [MissingProblems] whatever is on disk, and no slug of that name is
    reported by [ForegoneViolations] or [UnconfiguredProblems]. *)
Theorem exercises_directory_excluded (t : Track) :
  (∀ D e, Dirs fs t = Returns (D, e) → "exercises" ∉ D) ∧
  (∀ c D, Track_Config scan fs t = (c, None) → Dirs fs t = Returns (D, None) →
          "exercises" ∈ Config_Slugs c →
          ∃ missing, MissingProblems scan fs t = Returns (missing, None)
                     ∧ "exercises" ∈ missing) ∧
  (∀ l e, ForegoneViolations scan fs t = Returns (l, e) → "exercises" ∉ l) ∧
  (∀ l e, UnconfiguredProblems scan fs t = Returns (l, e) → "exercises" ∉ l).
Proof.
  assert (∀ D e, Dirs fs t = Returns (D, e) → "exercises" ∉ D) as HD.
  { intros D e H Hin. by destruct (Dirs_elem fs t D e _ H Hin). }
  split; [exact HD|]. split; [|split].
  - intros c D Hc Hd Hin. eexists. split.
    + unfold MissingProblems. rewrite Hd. simpl.
      rewrite (Problems_loaded _ _ _ _ Hc). reflexivity.
    + apply list_elem_of_filter. split; [by eapply HD|].
      apply elem_of_elements, elem_of_list_to_set, Hin.
  - intros l e. unfold ForegoneViolations.
    destruct (Track_Config scan fs t) as [c [err|]].
    + intros [= <- <-]. apply not_elem_of_nil.
    + destruct (Dirs fs t) as [[D [err|]]|] eqn:Hd; simpl; [| |discriminate].
      * intros [= <- <-]. apply not_elem_of_nil.
      * intros [= <- <-]. rewrite list_elem_of_filter. intros [Hin _]. by eapply HD.
  - intros l e. unfold UnconfiguredProblems.
    destruct (Dirs fs t) as [[D [err|]]|] eqn:Hd; simpl; [| |discriminate].
    + intros [= <- <-]. apply not_elem_of_nil.
    + destruct (Track_Slugs scan fs t) as [slugs [err|]].
      * intros [= <- <-]. apply not_elem_of_nil.
      * intros [= <- <-]. rewrite list_elem_of_filter, elem_of_elements.
        intros [_ Hin]. by eapply HD.
Qed.

(** C3, as amended.  For a manifest that loads (its slugs fewer than
    [2^63], as the length of a Go slice is), [DuplicateSlugs] returns
    exactly the slugs that occur at least twice in [exercises],
    [deprecated] and [foregone] taken together: a slug that occurs once is
    never returned, a slug of two or more of the sequences always is, and
    so is a slug repeated inside one sequence.  The result is in
    ascending order and names each slug once. *)
Theorem DuplicateSlugs_counts (t : Track) (c : Config) :
  Track_Config scan fs t = (c, None) →
  Z.of_nat (length (all_slugs c)) < 2 ^ 63 →
  ∃ dupes, DuplicateSlugs scan fs t = (dupes, None) ∧
    (∀ x, occurrences x (all_slugs c) = 1%nat → x ∉ dupes) ∧
    (∀ x, (2 ≤ sequences_with x c)%nat → x ∈ dupes) ∧
    (∀ x, x ∈ dupes ↔ (2 ≤ occurrences x (all_slugs c))%nat) ∧
    Sorted String.le dupes ∧ NoDup dupes.
Proof.
  intros Hc Hlen.
  destruct (DuplicateSlugs_loaded scan fs t c Hc Hlen) as (dupes & Hd & Hs & Hn & Hin).
  exists dupes. split; [exact Hd|]. split; [|split; [|split; [exact Hin|by split]]].
  - intros x Hx. rewrite Hin. lia.
  - intros x Hx. apply Hin. pose proof (sequences_with_le x c). lia.
Qed.



(** C9.  Let the manifest file hold a JSON document.  The manifest that
    [Load] returns has the pattern ["[Ee]xample"] when the document does
    not mention [solution_pattern], and empty [foregone] and [deprecated]
    sequences when it does not mention those.  Leaving members out never
    makes the load fail: if a document loads without error, so does every
    object made of some of its members, and so does the empty object. *)
Theorem Load_defaults (file bytes : string) (doc : json) :
  ReadFile fs file = inl bytes →
  scan bytes = inl doc →
  (mentions "solution_pattern" doc = false →
   SolutionPattern (Load scan fs file).1 = "[Ee]xample") ∧
  (mentions "foregone" doc = false → Foregone (Load scan fs file).1 = []) ∧
  (mentions "deprecated" doc = false → Deprecated (Load scan fs file).1 = []) ∧
  (∀ file' bytes' ms ms',
     doc = JObject ms →
     ReadFile fs file' = inl bytes' →
     scan bytes' = inl (JObject ms') →
     ms' ⊆ ms →
     (Load scan fs file).2 = None →
     (Load scan fs file').2 = None).
Proof.
  intros Hr Hs.
  assert (∀ {B} (get : Config → B) field,
            (∀ k v c saved, foldName k ≠ field → get (Config_member k v c saved).1 = get c) →
            mentions field doc = false →
            get (Load scan fs file).1 = get NewConfig) as Hkeep.
  { intros B get field Hget Hm. unfold Load. rewrite Hr.
    rewrite <- (Unmarshal_keeps get field scan bytes doc NewConfig Hget Hs Hm).
    by destruct (Unmarshal scan bytes NewConfig) as [c [e|]]. }
  split; [|split; [|split]].
  - apply (Hkeep _ SolutionPattern), Config_member_SolutionPattern.
  - apply (Hkeep _ Foregone), Config_member_Foregone.
  - apply (Hkeep _ Deprecated), Config_member_Deprecated.
  - intros file' bytes' ms ms' -> Hr' Hs' Hsub. unfold Load. rewrite Hr, Hr'.
    unfold Unmarshal. rewrite Hs, Hs'. simpl.
    pose proof (decode_members_ok Config_member ms NewConfig NewConfig steady_Config_member)
      as Hms.
    pose proof (decode_members_ok Config_member ms' NewConfig NewConfig steady_Config_member)
      as Hms'.
    destruct (decode_members Config_member ms NewConfig None) as [c [e|]]; [done|].
    destruct (decode_members Config_member ms' NewConfig None) as [c' [e|]]; [|done].
    intros _. simpl in *. exfalso.
    assert (Some e = None) as Habs; [|done].
    apply Hms'. intros k v Hin. apply (proj1 Hms eq_refl). by apply Hsub.
Qed.

(** Foregone enforcement.  With a manifest [c] that loads and the
    directories [D] that [Dirs] reads, [ForegoneViolations] returns the
    foregone slugs that are in [D], in the order of the manifest. *)
Theorem ForegoneViolations_intersection (t : Track) (c : Config) (D : gset string) :
  Track_Config scan fs t = (c, None) →
  Dirs fs t = Returns (D, None) →
  ∃ violations,
    ForegoneViolations scan fs t = Returns (violations, None) ∧
    violations `sublist_of` Foregone c ∧
    ∀ x, x ∈ violations ↔ x ∈ Foregone c ∧ x ∈ D.
Proof.
  intros Hc HD. exists (filter (fun x => x ∈ D) (Foregone c)).
  split; [|split].
  - unfold ForegoneViolations. rewrite Hc, HD. reflexivity.
  - apply sublist_filter.
  - intros x. rewrite list_elem_of_filter. tauto.
Qed.

(** [uniq] returns each item of its argument once, whatever the order:
    the result has no repetition and the same members as the argument,
    so it is never longer, and of the same length when the argument has
    no repetition. *)
Theorem uniq_members (items : list string) :
  NoDup (uniq items) ∧
  (∀ x, x ∈ uniq items ↔ x ∈ items) ∧
  (length (uniq items) ≤ length items)%nat ∧
  (NoDup items → uniq items ≡ₚ items).
Proof.
  assert (NoDup (uniq items)) as Hnd by apply NoDup_fst_map_to_list.
  assert (∀ x, x ∈ uniq items ↔ x ∈ items) as Hin.
  { intros x. unfold uniq. rewrite list_elem_of_fmap. split.
    - intros ([k b] & -> & Hkb). apply elem_of_map_to_list in Hkb.
      destruct (proj1 (uniques_lookup items ∅ k)) as [?|[? Hk]]; [by eexists|done|].
      by rewrite lookup_empty in Hk.
    - intros Hx. destruct (proj2 (uniques_lookup items ∅ x)) as [b Hb]; [by left|].
      exists (x, b). split; [done|]. by apply elem_of_map_to_list. }
  split; [exact Hnd|]. split; [exact Hin|]. split.
  - apply submseteq_length, NoDup_submseteq; [exact Hnd|]. intros x. apply Hin.
  - intros Hitems. apply NoDup_Permutation; assumption.
Qed.

(** When [exercises/] can be listed and no directory in it has an empty
    name, [Dirs] returns, without error, exactly the names of the entries
    that are directories, are not called ["exercises"] and do not start
    with a dot; plain files are left out. *)
Theorem Dirs_lists_shown_directories (t : Track) (fi : FileInfo) (infos : list FileInfo) :
  Stat fs (Join [path t; "exercises"]) = inl fi →
  ReadDir fs (Join [path t; "exercises"]) = inl infos →
  (∀ info, info ∈ infos → IsDir info = true → Name info ≠ "") →
  ∃ D, Dirs fs t = Returns (D, None) ∧
       ∀ x, x ∈ D ↔ ∃ info, info ∈ infos ∧ Name info = x ∧ IsDir info = true
                            ∧ x ≠ "exercises" ∧ dot_prefixed x = false.
Proof.
  intros Hs Hr Hnames. unfold Dirs. rewrite Hs, Hr.
  destruct (Dirs_loop infos ∅) as [D|] eqn:Hl.
  - exists D. split; [reflexivity|]. intros x.
    rewrite (Dirs_loop_spec infos ∅ D Hl x), elem_of_empty. tauto.
  - apply Dirs_loop_panics in Hl as (info & Hin & Hd & Hn). by destruct (Hnames info Hin Hd).
Qed.

(** [Dirs] panics (an index out of range in [isHiddenDir]) exactly when
    [exercises/] can be listed and holds a directory with an empty name. *)
Theorem Dirs_panics_on_empty_name (t : Track) :
  Dirs fs t = Panics
  ↔ ∃ fi infos info,
      Stat fs (Join [path t; "exercises"]) = inl fi ∧
      ReadDir fs (Join [path t; "exercises"]) = inl infos ∧
      info ∈ infos ∧ IsDir info = true ∧ Name info = "".
Proof.
  unfold Dirs.
  destruct (Stat fs (Join [path t; "exercises"])) as [fi|err] eqn:Hs.
  - destruct (ReadDir fs (Join [path t; "exercises"])) as [infos|err] eqn:Hr.
    + destruct (Dirs_loop infos ∅) as [D|] eqn:Hl; simpl.
      * split; [done|]. intros (fi' & infos' & info & _ & [= <-] & Hin & Hd & Hn).
        assert (Dirs_loop infos ∅ = Panics) as Hp by (apply Dirs_loop_panics; by exists info).
        congruence.
      * split; [|done]. intros _. apply Dirs_loop_panics in Hl as (info & Hin & Hd & Hn).
        by exists fi, infos, info.
    + split; [done|]. by intros (fi' & infos' & info & _ & [=] & _).
  - destruct (IsNotExist err); (split; [done|]); by intros (fi' & infos' & info & [=] & _).
Qed.

(** When the manifest loads and [NewTrack] returns no error, the track
    lives at [root] and records a directory for exactly the declared
    slugs for which [Stat] finds a directory whose name has no leading
    dot; the recorded path is [root/exercises/slug], cleaned, and never
    empty.  For every other declared slug [Stat] found something that is
    not such a directory, or failed with "does not exist". *)
Theorem NewTrack_records_shown_directories (root : string) (c : Config) (t : Track) :
  Track_Config scan fs (mkTrack root ∅) = (c, None) →
  NewTrack scan fs root = Returns (t, None) →
  path t = root ∧
  (∀ slug dir, dirs t !! slug = Some dir ↔
     slug ∈ DeclaredSlugs c ∧ dir = Join [root; "exercises"; slug] ∧
     ∃ fi, Stat fs dir = inl fi ∧ IsDir fi = true ∧ dot_prefixed (Name fi) = false) ∧
  (∀ slug dir, dirs t !! slug = Some dir → dir ≠ "") ∧
  (∀ slug err, slug ∈ DeclaredSlugs c →
               Stat fs (Join [root; "exercises"; slug]) = inr err → IsNotExist err = true).
Proof.
  intros Hc HN. destruct (NewTrack_returns scan fs root c t Hc HN) as [Hp Hdirs].
  split; [exact Hp|]. split; [exact Hdirs|]. split.
  - intros slug dir Hd. apply Hdirs in Hd as (_ & -> & _). apply exercise_dir_nonempty.
  - intros slug err Hin Hs. unfold NewTrack in HN.
    rewrite (Track_Slugs_loaded _ _ _ _ Hc) in HN.
    pose proof (NewTrack_loop_complete fs _ _ _ HN slug) as Hcomp. simpl in Hcomp.
    rewrite Hs in Hcomp. apply Hcomp. by apply elem_of_elements.
Qed.

(** An error of [NewTrack] is the error of loading the manifest, and
    then no directory is recorded, or the error of [Stat] on the
    directory of a declared slug, other than "does not exist". *)
Theorem NewTrack_error_origin (root : string) (t : Track) (err : error) :
  NewTrack scan fs root = Returns (t, Some err) →
  (dirs t = ∅ ∧ ∃ c, Track_Config scan fs (mkTrack root ∅) = (c, Some err)) ∨
  (∃ c slug, Track_Config scan fs (mkTrack root ∅) = (c, None) ∧
             slug ∈ DeclaredSlugs c ∧
             Stat fs (Join [root; "exercises"; slug]) = inr err ∧
             IsNotExist err = false).
Proof.
  unfold NewTrack, Track_Slugs.
  destruct (Track_Config scan fs (mkTrack root ∅)) as [c [e|]] eqn:Hc.
  - intros [= <- <-]. left. split; [done|]. by exists c.
  - intros HN. right. apply NewTrack_loop_error in HN as (slug & Hin & Hs & Hne).
    exists c, slug. split; [done|]. split; [|done].
    apply elem_of_elements in Hin. unfold DeclaredSlugs.
    rewrite !elem_of_add_all, elem_of_empty in Hin.
    rewrite !elem_of_union, !elem_of_list_to_set. tauto.
Qed.

(** The missing-example query on a track built by [NewTrack].  Take a
    manifest that loads, a pattern that compiles and finite trees.  With
    enough fuel the query returns, and when it returns no error it flags
    exactly the exercise slugs for which [Stat] finds, at
    [root/exercises/slug], a directory without leading dot below which no
    file has a non-empty leftmost match of the pattern in its path. *)
Theorem missing_examples_on_disk (root : string) (c : Config) (t : Track) (r : Regexp re) :
  Track_Config scan fs (mkTrack root ∅) = (c, None) →
  NewTrack scan fs root = Returns (t, None) →
  Compile re (SolutionPattern c) = inl r →
  (∀ slug dir, dirs t !! slug = Some dir → Finite fs dir) →
  ∃ n, ∀ fuel, (n ≤ fuel)%nat →
    ∃ issues err,
      ProblemsLackingExample scan fs re fuel t = Some (issues, err) ∧
      (err = None →
       ∀ slug, slug ∈ issues ↔
               slug ∈ Config_Slugs c ∧
               ∃ fi, Stat fs (Join [root; "exercises"; slug]) = inl fi ∧
                     IsDir fi = true ∧ dot_prefixed (Name fi) = false ∧
                     ∀ file, InTree fs (Join [root; "exercises"; slug]) file →
                             has_match re r file = false).
Proof.
  intros Hc HN Hr Hfin. destruct (NewTrack_returns scan fs root c t Hc HN) as [Hp Hdirs].
  assert (Track_Config scan fs t = (c, None)) as Hct.
  { rewrite <- Hc. by apply Track_Config_path. }
  destruct (ProblemsLackingExample_terminates scan fs re t Hfin) as [n Hn].
  exists n. intros fuel Hfuel. destruct (Hn fuel Hfuel) as [[issues err] Hrun].
  exists issues, err. split; [exact Hrun|]. intros -> slug.
  rewrite (ProblemsLackingExample_characterised scan fs re fuel t c r issues Hct Hr Hrun slug).
  split.
  - intros (Hin & dir & Hd & _ & Hall). split; [done|].
    apply Hdirs in Hd as (_ & -> & fi & Hs & Hdi & Hdot). by exists fi.
  - intros (Hin & fi & Hs & Hdi & Hdot & Hall). split; [done|].
    exists (Join [root; "exercises"; slug]). split; [|split; [apply exercise_dir_nonempty|done]].
    apply Hdirs. split; [|split; [done|by exists fi]].
    unfold DeclaredSlugs. rewrite !elem_of_union, !elem_of_list_to_set. tauto.
Qed.

(** When [findAllFiles] returns no error, it returns exactly the files
    of the tree below [dir], at every depth, and the path of each starts
    with [dir] and a slash. *)
Theorem findAllFiles_lists_tree (n : nat) (dir : string) (files : list string) :
  findAllFiles fs n dir = Some (files, None) →
  (∀ f, f ∈ files ↔ InTree fs dir f) ∧
  (∀ f, f ∈ files → String.prefix (dir ++ "/") f = true).
Proof.
  intros H. pose proof (findAllFiles_files fs n dir files H) as Hfiles.
  split; [exact Hfiles|]. intros f Hf. apply (InTree_prefix fs), Hfiles, Hf.
Qed.


(** With a manifest that loads and directories that [Dirs] reads, the
    three set queries return without error, and no name is in two of the
    results: a missing problem is a declared slug without directory, an
    unconfigured directory is a directory that is not declared, and a
    foregone violation is a declared slug with a directory. *)
Theorem query_results_disjoint (t : Track) (c : Config) (D : gset string) :
  Track_Config scan fs t = (c, None) →
  Dirs fs t = Returns (D, None) →
  ∃ missing unconfigured violations,
    MissingProblems scan fs t = Returns (missing, None) ∧
    UnconfiguredProblems scan fs t = Returns (unconfigured, None) ∧
    ForegoneViolations scan fs t = Returns (violations, None) ∧
    (∀ x, x ∈ missing → x ∈ DeclaredSlugs c ∧ x ∉ D) ∧
    (∀ x, x ∈ unconfigured → (x ∉ DeclaredSlugs c) ∧ x ∈ D) ∧
    (∀ x, x ∈ violations → x ∈ DeclaredSlugs c ∧ x ∈ D) ∧
    (∀ x, ¬ (x ∈ missing ∧ x ∈ unconfigured) ∧
          ¬ (x ∈ missing ∧ x ∈ violations) ∧
          ¬ (x ∈ unconfigured ∧ x ∈ violations)).
Proof.
  intros Hc HD.
  exists (filter (fun x => x ∉ D) (elements (ProblemsOf c))),
         (filter (fun x => x ∉ DeclaredSlugs c) (elements D)),
         (filter (fun x => x ∈ D) (Foregone c)).
  assert (∀ x, x ∈ filter (fun x => x ∉ D) (elements (ProblemsOf c)) →
               x ∈ DeclaredSlugs c ∧ x ∉ D) as Hm.
  { intros x. rewrite list_elem_of_filter, elem_of_elements. unfold ProblemsOf, DeclaredSlugs.
    rewrite !elem_of_union, !elem_of_list_to_set. tauto. }
  assert (∀ x, x ∈ filter (fun x => x ∉ DeclaredSlugs c) (elements D) →
               (x ∉ DeclaredSlugs c) ∧ x ∈ D) as Hu.
  { intros x. rewrite list_elem_of_filter, elem_of_elements. tauto. }
  assert (∀ x, x ∈ filter (fun x => x ∈ D) (Foregone c) → x ∈ DeclaredSlugs c ∧ x ∈ D) as Hv.
  { intros x. rewrite list_elem_of_filter. unfold DeclaredSlugs.
    rewrite !elem_of_union, !elem_of_list_to_set. tauto. }
  split; [|split; [|split; [|split; [exact Hm|split; [exact Hu|split; [exact Hv|]]]]]].
  - unfold MissingProblems. rewrite HD. simpl. by rewrite (Problems_loaded _ _ _ _ Hc).
  - unfold UnconfiguredProblems. rewrite HD. simpl. by rewrite (Track_Slugs_loaded _ _ _ _ Hc).
  - unfold ForegoneViolations. by rewrite Hc, HD.
  - intros x. split; [|split]; intros [H1 H2].
    + apply Hm in H1. apply Hu in H2. tauto.
    + apply Hm in H1. apply Hv in H2. tauto.
    + apply Hu in H1. apply Hv in H2. tauto.
Qed.

(** Whatever [ProblemsLackingExample] returns, with or without error,
    lists slugs in the order of the [exercises] sequence, and only slugs
    for which the track records a directory. *)
Theorem ProblemsLackingExample_in_manifest_order (fuel : nat) (t : Track)
    (issues : list string) (err : option error) :
  ProblemsLackingExample scan fs re fuel t = Some (issues, err) →
  issues `sublist_of` Config_Slugs (Track_Config scan fs t).1 ∧
  ∀ slug, slug ∈ issues → ∃ dir, dirs t !! slug = Some dir ∧ dir ≠ "".
Proof.
  unfold ProblemsLackingExample. destruct (Track_Config scan fs t) as [c [e|]]; simpl.
  - intros [= <- <-]. split; [apply sublist_nil_l|]. intros slug Hin.
    by apply elem_of_nil in Hin.
  - intros H. apply ProblemsLackingExample_loop_added in H as (added & -> & Hsub & Hdir).
    by split.
Qed.

(** An exercise whose recorded directory holds no file at any depth is
    flagged whenever the query returns no error, whatever the pattern,
    also one that does not compile. *)
Theorem directory_without_files_is_flagged (fuel : nat) (t : Track) (c : Config)
    (slug dir : string) (issues : list string) :
  Track_Config scan fs t = (c, None) →
  slug ∈ Config_Slugs c →
  dirs t !! slug = Some dir →
  dir ≠ "" →
  (∀ file, ¬ InTree fs dir file) →
  ProblemsLackingExample scan fs re fuel t = Some (issues, None) →
  slug ∈ issues.
Proof.
  intros Hc Hin Hd Hne Hempty Hrun. unfold ProblemsLackingExample in Hrun. rewrite Hc in Hrun.
  destruct (ProblemsLackingExample_loop_ok _ _ _ _ _ _ _ _ Hrun) as [Ha Hb].
  apply Hb. right. split; [done|]. destruct (Ha slug dir Hin Hd Hne) as [files Hf].
  exists dir, files. split; [done|]. split; [done|]. split; [done|].
  assert (files = []) as ->; [|apply hasExampleFile_nil].
  destruct files as [|f files]; [done|]. exfalso. apply (Hempty f).
  apply (findAllFiles_files fs fuel dir _ Hf). by left.
Qed.


(** Members whose key names no field of [Config] are ignored: two
    documents that are objects with the same other members, in the same
    order, decode into the same manifest with the same error. *)
Theorem Unmarshal_ignores_unknown_keys (bytes bytes' : string)
    (ms ms' : list (string * json)) (c : Config) :
  scan bytes = inl (JObject ms) →
  scan bytes' = inl (JObject ms') →
  filter (fun kv : string * json => names_field kv.1 = true) ms
  = filter (fun kv : string * json => names_field kv.1 = true) ms' →
  Unmarshal scan bytes c = Unmarshal scan bytes' c.
Proof.
  intros Hs Hs' Hknown. unfold Unmarshal. rewrite Hs, Hs'. simpl.
  by rewrite (decode_members_known ms), (decode_members_known ms'), Hknown.
Qed.

(** When the manifest does not load, the error of [Load] is the error
    of [Problems], [Track.Slugs], [NewTrack] (which records nothing) and
    [hasExampleFile], and of [MissingProblems] and [UnconfiguredProblems]
    once [Dirs] has returned without error; each returns it with an empty
    result. *)
Theorem load_error_reaches_queries (t : Track) (c : Config) (err : error) :
  Track_Config scan fs t = (c, Some err) →
  Problems scan fs t = (∅, Some err) ∧
  Track_Slugs scan fs t = (∅, Some err) ∧
  NewTrack scan fs (path t) = Returns (mkTrack (path t) ∅, Some err) ∧
  (∀ files, hasExampleFile scan fs re t files = (false, Some err)) ∧
  (∀ D, Dirs fs t = Returns (D, None) →
        MissingProblems scan fs t = Returns ([], Some err) ∧
        UnconfiguredProblems scan fs t = Returns ([], Some err)).
Proof.
  intros Hc.
  assert (Problems scan fs t = (∅, Some err)) as HP by (unfold Problems; by rewrite Hc).
  assert (Track_Slugs scan fs t = (∅, Some err)) as HS by (unfold Track_Slugs; by rewrite Hc).
  split; [exact HP|]. split; [exact HS|]. split; [|split].
  - unfold NewTrack, Track_Slugs.
    rewrite (Track_Config_path scan fs (mkTrack (path t) ∅) t eq_refl), Hc. reflexivity.
  - intros files. unfold hasExampleFile. by rewrite Hc.
  - intros D HD. unfold MissingProblems, UnconfiguredProblems. rewrite HD. simpl.
    by rewrite HP, HS.
Qed.

End Claims.

(** C1, at a manifest that does not parse: loading fails, and the
    validity check still answers true. *)
Theorem HasValidConfig_broken_manifest :
  let t := mkTrack "track" ∅ in
  is_Some (Track_Config scan_json (tree_disk broken_manifest) t).2 ∧
  HasValidConfig scan_json (tree_disk broken_manifest) t = true.
Proof. split; [by eexists | apply HasValidConfig_true]. Qed.

(** C7 on three tracks: no [exercises/], a root that is a plain file, and
    an [exercises/] that cannot be read. *)
Lemma Dirs_without_exercises_witness :
  Dirs (tree_disk bare) (mkTrack "track" ∅) = Returns (∅, None) ∧
  Dirs (tree_disk bare) (mkTrack "notes.txt" ∅)
    = Returns (∅, Some (PathError "stat" "notes.txt/exercises" ENOTDIR)) ∧
  Dirs (tree_disk locked) (mkTrack "track" ∅)
    = Returns (∅, Some (PathError "open" "track/exercises" EACCES)).
Proof.
  split; [|split].
  - apply (proj1 (Dirs_without_exercises (tree_disk bare) (mkTrack "track" ∅))
             (PathError "stat" "track/exercises" ENOENT)); reflexivity.
  - apply (proj1 (proj2 (Dirs_without_exercises (tree_disk bare) (mkTrack "notes.txt" ∅))));
      reflexivity.
  - apply (proj2 (proj2 (Dirs_without_exercises (tree_disk locked) (mkTrack "track" ∅)))
             {| Name := "exercises"; IsDir := true |}); reflexivity.
Defined.

(** C8 on a track with the directory [.meta], which the manifest lists. *)
Lemma hidden_directories_invisible_witness :
  match Dirs (tree_disk hidden) (mkTrack "track" ∅) with
  | Returns (D, _) => ".meta" ∉ D
  | Panics => False
  end ∧
  match NewTrack scan_json (tree_disk hidden) "track" with
  | Returns (t, _) => dirs t !! ".meta" = None
  | Panics => False
  end.
Proof.
  split.
  - destruct (Dirs (tree_disk hidden) (mkTrack "track" ∅)) as [[D e]|] eqn:H.
    + apply (proj1 (hidden_directories_invisible scan_json (tree_disk hidden)) _ _ _ _ H).
      reflexivity.
    + vm_compute in H. discriminate H.
  - destruct (NewTrack scan_json (tree_disk hidden) "track") as [[t e]|] eqn:H.
    + apply (proj2 (hidden_directories_invisible scan_json (tree_disk hidden))
               "track" t e ".meta" {| Name := ".meta"; IsDir := true |} H); reflexivity.
    + vm_compute in H. discriminate H.
Defined.


(** On the sample track the two queries answer [carol] and [alice]. *)
Example sample_set_queries :
  MissingProblems scan_json (tree_disk sample) sample_track = Returns (["carol"], None) ∧
  UnconfiguredProblems scan_json (tree_disk sample) sample_track = Returns (["alice"], None) ∧
  ForegoneViolations scan_json (tree_disk sample) sample_track = Returns (["trivial"], None).
Proof. repeat split; vm_compute; reflexivity. Qed.

(** C10 as stated fails: the slug [exercises] is declared (it is
    foregone) and its directory exists, yet it is not reported missing. *)
Lemma declared_exercises_not_missing :
  let fs := tree_disk nested_exercises in
  let t := mkTrack "track" ∅ in
  "exercises" ∈ DeclaredSlugs (Track_Config scan_json fs t).1 ∧
  Stat fs "track/exercises/exercises" = inl {| Name := "exercises"; IsDir := true |} ∧
  MissingProblems scan_json fs t = Returns ([], None).
Proof.
  split; [|split].
  - vm_compute. reflexivity.
  - reflexivity.
  - vm_compute. reflexivity.
Qed.

(** C10, as amended, on the two tracks with [exercises/exercises]. *)
Lemma exercises_directory_excluded_witness :
  let t := mkTrack "track" ∅ in
  match Dirs (tree_disk nested_exercises) t with
  | Returns (D, _) => "exercises" ∉ D
  | Panics => False
  end ∧
  match ForegoneViolations scan_json (tree_disk nested_exercises) t with
  | Returns (l, _) => "exercises" ∉ l
  | Panics => False
  end ∧
  ∃ missing, MissingProblems scan_json (tree_disk exercises_slug) t = Returns (missing, None)
             ∧ "exercises" ∈ missing.
Proof.
  split; [|split].
  - destruct (Dirs (tree_disk nested_exercises) (mkTrack "track" ∅)) as [[D e]|] eqn:H.
    + exact (proj1 (exercises_directory_excluded scan_json (tree_disk nested_exercises)
                      (mkTrack "track" ∅)) D e H).
    + vm_compute in H. discriminate H.
  - destruct (ForegoneViolations scan_json (tree_disk nested_exercises) (mkTrack "track" ∅))
      as [[l e]|] eqn:H.
    + exact (proj1 (proj2 (proj2 (exercises_directory_excluded scan_json
                      (tree_disk nested_exercises) (mkTrack "track" ∅)))) l e H).
    + vm_compute in H. discriminate H.
  - apply (proj1 (proj2 (exercises_directory_excluded scan_json (tree_disk exercises_slug)
                           (mkTrack "track" ∅)))
             (Track_Config scan_json (tree_disk exercises_slug) (mkTrack "track" ∅)).1 ∅).
    + vm_compute. reflexivity.
    + vm_compute. reflexivity.
    + vm_compute. by left.
Defined.

(** C3 as stated fails: [bob] appears in exactly one of the three
    sequences, twice, and is returned. *)
Lemma repeated_slug_is_duplicate :
  let fs := tree_disk listed_twice in
  let t := mkTrack "track" ∅ in
  sequences_with "bob" (Track_Config scan_json fs t).1 = 1%nat ∧
  DuplicateSlugs scan_json fs t = (["bob"], None).
Proof. split; vm_compute; reflexivity. Qed.

(** C3, as amended, on a manifest with two slugs classified twice. *)
Lemma DuplicateSlugs_counts_witness :
  ∃ dupes,
    DuplicateSlugs scan_json (tree_disk twice_classified) sample_track = (dupes, None) ∧
    (∀ x, occurrences x (all_slugs twice_classified_config) = 1%nat → x ∉ dupes) ∧
    (∀ x, (2 ≤ sequences_with x twice_classified_config)%nat → x ∈ dupes) ∧
    (∀ x, x ∈ dupes ↔ (2 ≤ occurrences x (all_slugs twice_classified_config))%nat) ∧
    Sorted String.le dupes ∧ NoDup dupes.
Proof.
  apply (DuplicateSlugs_counts scan_json (tree_disk twice_classified) sample_track
           twice_classified_config).
  - vm_compute. reflexivity.
  - vm_compute. reflexivity.
Defined.

(** Slugs of two classifications come back in ascending order; on the
    sample track there is none. *)
Example DuplicateSlugs_examples :
  DuplicateSlugs scan_json (tree_disk twice_classified) sample_track
    = (["bob"; "carol"], None) ∧
  DuplicateSlugs scan_json (tree_disk sample) sample_track = ([], None).
Proof. split; vm_compute; reflexivity. Qed.

(** The tracks used below are the ones [NewTrack] builds. *)
Example NewTrack_examples :
  NewTrack scan_json (tree_disk sample) "track" = Returns (sample_resolved, None) ∧
  NewTrack scan_json (tree_disk bad_pattern) "track" = Returns (bob_resolved, None) ∧
  NewTrack scan_json (tree_disk empty_pattern) "track" = Returns (bob_resolved, None) ∧
  NewTrack scan_json (tree_disk unreadable) "track" = Returns (unreadable_resolved, None).
Proof. repeat split; vm_compute; reflexivity. Qed.

(** C2, at a pattern that does not compile: [hasExampleFile] returns the
    error of [regexp.Compile], and the query returns no error and flags
    [bob], whose directory holds [example.go]. *)
Theorem pattern_error_swallowed :
  let fs := tree_disk bad_pattern in
  findAllFiles fs 2 "track/exercises/bob" = Some (["track/exercises/bob/example.go"], None) ∧
  hasExampleFile scan_json fs fragment bob_resolved ["track/exercises/bob/example.go"]
    = (false, Some (RegexpError "missing closing )" "(")) ∧
  ProblemsLackingExample scan_json fs fragment 2 bob_resolved = Some (["bob"], None).
Proof. repeat split; vm_compute; reflexivity. Qed.





(** On the sample track [dave], whose directory only holds
    [solution.go], is flagged, and [bob], whose example lies in a
    subdirectory, is not. *)
Example sample_missing_examples :
  findAllFiles (tree_disk sample) 3 "track/exercises/bob"
    = Some (["track/exercises/bob/sub/example.go"], None) ∧
  has_match fragment example_regexp "track/exercises/bob/sub/example.go" = true ∧
  has_match fragment example_regexp "track/exercises/dave/solution.go" = false ∧
  ProblemsLackingExample scan_json (tree_disk sample) fragment 3 sample_resolved
    = Some (["dave"], None).
Proof. repeat split; vm_compute; reflexivity. Qed.

(** C9 on a manifest that only lists exercises, and on the empty object. *)
Lemma Load_defaults_witness :
  let fs := tree_disk hidden in
  SolutionPattern (Load scan_json fs "track/config.json").1 = "[Ee]xample" ∧
  Foregone (Load scan_json fs "track/config.json").1 = [] ∧
  Deprecated (Load scan_json fs "track/config.json").1 = [] ∧
  (Load scan_json (tree_disk empty_object) "track/config.json").2 = None.
Proof.
  pose proof (Load_defaults scan_json (tree_disk hidden) "track/config.json"
                (dq "{'exercises': [{'slug': '.meta'}, {'slug': 'bob'}]}")
                (JObject [("exercises",
                           JArray [JObject [("slug", JString ".meta")];
                                   JObject [("slug", JString "bob")]])])
                eq_refl eq_refl) as (Hs & Hf & Hd & _).
  split; [exact (Hs eq_refl)|]. split; [exact (Hf eq_refl)|]. split; [exact (Hd eq_refl)|].
  pose proof (Load_defaults scan_json (tree_disk empty_object) "track/config.json"
                "{}" (JObject []) eq_refl eq_refl) as (_ & _ & _ & Hsub).
  apply (Hsub "track/config.json" "{}" [] []); reflexivity.
Defined.

(** The empty object and [null] load as the defaults; a member of the
    wrong type makes the load fail. *)
Example Load_examples :
  Load scan_json (tree_disk empty_object) "track/config.json" = (NewConfig, None) ∧
  Unmarshal scan_json "null" NewConfig = (NewConfig, None) ∧
  (Unmarshal scan_json (dq "{'foregone': 'bob'}") NewConfig).2
    = Some (UnmarshalTypeError "string" "[]string" "Config.foregone") ∧
  SolutionPattern (Unmarshal scan_json (dq "{'Solution_Pattern': 'sample'}") NewConfig).1
    = "sample".
Proof. repeat split; vm_compute; reflexivity. Qed.

(** Foregone enforcement on the sample track. *)
Lemma ForegoneViolations_intersection_witness :
  ∃ violations,
    ForegoneViolations scan_json (tree_disk sample) sample_track
      = Returns (violations, None) ∧
    violations `sublist_of` Foregone sample_config ∧
    ∀ x, x ∈ violations ↔ x ∈ Foregone sample_config ∧ x ∈ sample_dirs.
Proof.
  apply (ForegoneViolations_intersection scan_json (tree_disk sample) sample_track
           sample_config sample_dirs).
  - vm_compute. reflexivity.
  - vm_compute. reflexivity.
Defined.

(** * More examples *)

(** [Dirs] on the sample track: of the six entries of [exercises/], the
    hidden directory and the plain file are left out. *)
Lemma Dirs_lists_shown_directories_witness :
  ∃ D, Dirs (tree_disk sample) sample_track = Returns (D, None) ∧
       ∀ x, x ∈ D ↔
            ∃ info, info ∈ [ {| Name := ".meta"; IsDir := true |};
                             {| Name := "README"; IsDir := false |};
                             {| Name := "alice"; IsDir := true |};
                             {| Name := "bob"; IsDir := true |};
                             {| Name := "dave"; IsDir := true |};
                             {| Name := "trivial"; IsDir := true |} ]
                    ∧ Name info = x ∧ IsDir info = true
                    ∧ x ≠ "exercises" ∧ dot_prefixed x = false.
Proof.
  apply (Dirs_lists_shown_directories (tree_disk sample) sample_track
           {| Name := "exercises"; IsDir := true |}).
  - reflexivity.
  - vm_compute. reflexivity.
  - intros info Hin _.
    repeat (apply elem_of_cons in Hin as [->|Hin]; [discriminate|]).
    by apply elem_of_nil in Hin.
Defined.

(** [NewTrack] on the sample track. *)
Lemma NewTrack_records_shown_directories_witness :
  path sample_resolved = "track" ∧
  (∀ slug dir, dirs sample_resolved !! slug = Some dir ↔
     slug ∈ DeclaredSlugs sample_config ∧ dir = Join ["track"; "exercises"; slug] ∧
     ∃ fi, Stat (tree_disk sample) dir = inl fi ∧ IsDir fi = true
           ∧ dot_prefixed (Name fi) = false) ∧
  (∀ slug dir, dirs sample_resolved !! slug = Some dir → dir ≠ "") ∧
  (∀ slug err, slug ∈ DeclaredSlugs sample_config →
               Stat (tree_disk sample) (Join ["track"; "exercises"; slug]) = inr err →
               IsNotExist err = true).
Proof.
  apply (NewTrack_records_shown_directories scan_json (tree_disk sample) "track"
           sample_config sample_resolved).
  - vm_compute. reflexivity.
  - vm_compute. reflexivity.
Defined.

(** [NewTrack] where [exercises] is a plain file: [Stat] on the
    directory of [bob] fails with "not a directory". *)
Lemma NewTrack_error_origin_witness :
  let err := PathError "stat" "track/exercises/bob" ENOTDIR in
  NewTrack scan_json (tree_disk exercises_is_file) "track" = Returns (mkTrack "track" ∅, Some err) ∧
  ∃ c slug,
    Track_Config scan_json (tree_disk exercises_is_file) (mkTrack "track" ∅) = (c, None) ∧
    slug ∈ DeclaredSlugs c ∧
    Stat (tree_disk exercises_is_file) (Join ["track"; "exercises"; slug]) = inr err ∧
    IsNotExist err = false.
Proof.
  assert (NewTrack scan_json (tree_disk exercises_is_file) "track"
          = Returns (mkTrack "track" ∅, Some (PathError "stat" "track/exercises/bob" ENOTDIR)))
    as HN by (vm_compute; reflexivity).
  split; [exact HN|].
  destruct (NewTrack_error_origin scan_json (tree_disk exercises_is_file) "track" _ _ HN)
    as [[_ [c Hc]]|H].
  - vm_compute in Hc. discriminate Hc.
  - exact H.
Defined.

(** The missing-example query on the sample track, from the disk. *)
Lemma missing_examples_on_disk_witness :
  ∃ n, ∀ fuel, (n ≤ fuel)%nat →
    ∃ issues err,
      ProblemsLackingExample scan_json (tree_disk sample) fragment fuel sample_resolved
        = Some (issues, err) ∧
      (err = None →
       ∀ slug, slug ∈ issues ↔
               slug ∈ Config_Slugs sample_config ∧
               ∃ fi, Stat (tree_disk sample) (Join ["track"; "exercises"; slug]) = inl fi ∧
                     IsDir fi = true ∧ dot_prefixed (Name fi) = false ∧
                     ∀ file, InTree (tree_disk sample) (Join ["track"; "exercises"; slug]) file →
                             has_match fragment example_regexp file = false).
Proof.
  apply (missing_examples_on_disk scan_json (tree_disk sample) fragment "track"
           sample_config sample_resolved example_regexp).
  - vm_compute. reflexivity.
  - vm_compute. reflexivity.
  - vm_compute. reflexivity.
  - apply (finite_dirs_check (tree_disk sample) 3). vm_compute. reflexivity.
Defined.

(** [findAllFiles] below the directory of [bob] on the sample track. *)
Lemma findAllFiles_lists_tree_witness :
  (∀ f, f ∈ ["track/exercises/bob/sub/example.go"]
        ↔ InTree (tree_disk sample) "track/exercises/bob" f) ∧
  (∀ f, f ∈ ["track/exercises/bob/sub/example.go"]
        → String.prefix ("track/exercises/bob" ++ "/") f = true).
Proof.
  apply (findAllFiles_lists_tree (tree_disk sample) 3 "track/exercises/bob").
  vm_compute. reflexivity.
Defined.


(** The three set queries on the sample track. *)
Lemma query_results_disjoint_witness :
  ∃ missing unconfigured violations,
    MissingProblems scan_json (tree_disk sample) sample_track = Returns (missing, None) ∧
    UnconfiguredProblems scan_json (tree_disk sample) sample_track
      = Returns (unconfigured, None) ∧
    ForegoneViolations scan_json (tree_disk sample) sample_track
      = Returns (violations, None) ∧
    (∀ x, x ∈ missing → x ∈ DeclaredSlugs sample_config ∧ x ∉ sample_dirs) ∧
    (∀ x, x ∈ unconfigured → (x ∉ DeclaredSlugs sample_config) ∧ x ∈ sample_dirs) ∧
    (∀ x, x ∈ violations → x ∈ DeclaredSlugs sample_config ∧ x ∈ sample_dirs) ∧
    (∀ x, ¬ (x ∈ missing ∧ x ∈ unconfigured) ∧
          ¬ (x ∈ missing ∧ x ∈ violations) ∧
          ¬ (x ∈ unconfigured ∧ x ∈ violations)).
Proof.
  apply (query_results_disjoint scan_json (tree_disk sample) sample_track
           sample_config sample_dirs).
  - vm_compute. reflexivity.
  - vm_compute. reflexivity.
Defined.

(** The result on the track with a directory that cannot be listed. *)
Lemma ProblemsLackingExample_in_manifest_order_witness :
  ["dave"] `sublist_of`
    Config_Slugs (Track_Config scan_json (tree_disk unreadable) unreadable_resolved).1 ∧
  ∀ slug, slug ∈ ["dave"] → ∃ dir, dirs unreadable_resolved !! slug = Some dir ∧ dir ≠ "".
Proof.
  apply (ProblemsLackingExample_in_manifest_order scan_json (tree_disk unreadable) fragment
           2 unreadable_resolved ["dave"]
           (Some (PathError "open" "track/exercises/zed" EACCES))).
  vm_compute. reflexivity.
Defined.

(** [bob], whose directory is empty, is flagged. *)
Lemma directory_without_files_is_flagged_witness :
  "bob" ∈ ["bob"] ∧
  ProblemsLackingExample scan_json (tree_disk empty_exercise) fragment 2 bob_resolved
  = Some (["bob"], None).
Proof.
  assert (ProblemsLackingExample scan_json (tree_disk empty_exercise) fragment 2 bob_resolved
          = Some (["bob"], None)) as Hrun by (vm_compute; reflexivity).
  split; [|exact Hrun].
  apply (directory_without_files_is_flagged scan_json (tree_disk empty_exercise) fragment
           2 bob_resolved
           (Track_Config scan_json (tree_disk empty_exercise) bob_resolved).1
           "bob" "track/exercises/bob" ["bob"]).
  - vm_compute. reflexivity.
  - vm_compute. by left.
  - vm_compute. reflexivity.
  - discriminate.
  - intros file Hfile.
    apply (findAllFiles_files (tree_disk empty_exercise) 2 "track/exercises/bob" []) in Hfile.
    + by apply elem_of_nil in Hfile.
    + vm_compute. reflexivity.
  - exact Hrun.
Defined.

(** A manifest with two members that name no field decodes like the
    manifest without them. *)
Lemma Unmarshal_ignores_unknown_keys_witness :
  Unmarshal scan_json plain_manifest NewConfig = Unmarshal scan_json noisy_manifest NewConfig.
Proof.
  apply (Unmarshal_ignores_unknown_keys scan_json plain_manifest noisy_manifest
           [("exercises", JArray [JObject [("slug", JString "bob")]])]
           [("checklist_issue", JNumber "4");
            ("exercises", JArray [JObject [("slug", JString "bob")]]);
            ("test_pattern", JArray [JString "a"; JNull])]).
  - vm_compute. reflexivity.
  - vm_compute. reflexivity.
  - vm_compute. reflexivity.
Defined.

(** The error of a manifest that does not parse, in the queries. *)
Lemma load_error_reaches_queries_witness :
  let fs := tree_disk broken_manifest in
  let t := mkTrack "track" ∅ in
  match Track_Config scan_json fs t with
  | (_, Some err) =>
      Problems scan_json fs t = (∅, Some err) ∧
      Track_Slugs scan_json fs t = (∅, Some err) ∧
      NewTrack scan_json fs "track" = Returns (t, Some err) ∧
      (∀ files, hasExampleFile scan_json fs fragment t files = (false, Some err)) ∧
      (∀ D, Dirs fs t = Returns (D, None) →
            MissingProblems scan_json fs t = Returns ([], Some err) ∧
            UnconfiguredProblems scan_json fs t = Returns ([], Some err))
  | (_, None) => False
  end.
Proof.
  cbv zeta.
  destruct (Track_Config scan_json (tree_disk broken_manifest) (mkTrack "track" ∅))
    as [c [err|]] eqn:Hc.
  - exact (load_error_reaches_queries scan_json (tree_disk broken_manifest) fragment
             (mkTrack "track" ∅) c err Hc).
  - vm_compute in Hc. discriminate Hc.
Defined.
